(** * iterableio: a file-like reader over an iterable of bytes

    Shallow embedding of [iterableio.py] (class [RawIterableReader] and the
    factory [open_iterable]) and the properties of its specification.

    Conventions of the embedding:
    - a Python [bytes]/[bytearray] value is a [list byte];
    - a call that may raise returns a [result]; a method that mutates
      [self] returns the new [self] next to its result (explicit state
      passing), and [readinto] also returns the new contents of the
      caller's buffer [b];
    - the producer (the iterator obtained by [iter(iterable)]) is the
      finite list of what its successive [next] calls will do. *)

From Stdlib Require Import ZArith Lia List Strings.String Strings.Ascii Strings.Byte.
From stdpp Require Import base gmap sets list strings.
Import ListNotations.

(** ** Python values *)

Definition bytes := list byte.

(** Exceptions. [Exception name] stands for any class this module does
    not name itself (whatever a producer may raise). *)
Inductive exn :=
| StopIteration
| ValueError (msg : string)
| TypeError (msg : string)
| Exception (name : string).

Inductive result (A : Type) :=
| Ok (a : A)
| Raise (e : exn).
Arguments Ok {A} a.
Arguments Raise {A} e.

(** ** The producer

    One entry per future [next] call: the call returns a chunk or raises.
    Past the last entry the iterator is exhausted and [next] raises
    [StopIteration]. A [Throw StopIteration] entry is an iterator that
    signals exhaustion although it could go on. *)
Inductive event :=
| Yield (chunk : bytes)
| Throw (e : exn).

Definition iterator := list event.

Definition next (it : iterator) : result bytes * iterator :=
  match it with
  | [] => (Raise StopIteration, [])
  | Yield chunk :: it' => (Ok chunk, it')
  | Throw e :: it' => (Raise e, it')
  end.

(** [b[:k] = v] on a bytearray [b]. Every use below has [length v = k],
    the only case a memoryview target accepts. *)
Definition set_prefix (b : bytes) (k : nat) (v : bytes) : bytes :=
  v ++ skipn k b.

(** ** class RawIterableReader(io.RawIOBase) *)

Module RawIterableReader.

(** The instance attributes, plus the [closed] flag kept by
    [io.IOBase]. A [None] attribute is Python's [None]. *)
Record t := mk {
  _iter : option iterator;
  _buffer : option bytes;
  _total : nat;
  closed : bool
}.

Definition __init__ (iterable : iterator) : t :=
  {| _iter := Some iterable; _buffer := Some []; _total := 0; closed := false |}.

Definition readable (self : t) : bool := true.

(** [io.IOBase._checkClosed] *)
Definition _checkClosed (self : t) : result unit :=
  if closed self then Raise (ValueError "I/O operation on closed file.")
  else Ok tt.

(** [super().close()] only sets the flag: [IOBase.flush] does nothing on
    an open stream and [IOBase.close] does nothing on a closed one. *)
Definition close (self : t) : t :=
  {| _iter := None; _buffer := None; _total := _total self; closed := true |}.

Definition no_len : exn := TypeError "object of type 'NoneType' has no len()".

Definition tell (self : t) : result Z :=
  match _checkClosed self with
  | Raise e => Raise e
  | Ok _ =>
      match _buffer self with
      | None => Raise no_len
      | Some buffer => Ok (Z.of_nat (_total self) - Z.of_nat (length buffer))%Z
      end
  end.

(** What the [while] loop of [readinto] leaves behind: the three
    attributes, and the exception that left the loop if one did. *)
Record loop_exit := mk_exit {
  exit_iter : option iterator;
  exit_buffer : bytes;
  exit_total : nat;
  exit_raised : option exn
}.

(** [while len(self._buffer) < num: try: new = next(self._iter) ...].
    The recursion is on the producer, with [next] unfolded in place;
    [readinto_loop_next] below restates it through [next]. *)
Fixpoint readinto_loop (num : nat) (it : iterator) (buffer : bytes)
    (total : nat) {struct it} : loop_exit :=
  if length buffer <? num then
    match it with
    | [] => mk_exit None buffer total None
    | Throw StopIteration :: _ => mk_exit None buffer total None
    | Throw e :: it' => mk_exit (Some it') buffer total (Some e)
    | Yield new :: it' =>
        readinto_loop num it' (buffer ++ new) (total + length new)
    end
  else mk_exit (Some it) buffer total None.

(** Lines 38-47: [if self._iter is not None: while ...]. *)
Definition pull (num : nat) (handle : option iterator) (buffer : bytes)
    (total : nat) : loop_exit :=
  match handle with
  | Some it => readinto_loop num it buffer total
  | None => mk_exit None buffer total None
  end.

(** [readinto(b)]: the result, the contents of [b] afterwards and the
    new [self]. *)
Definition readinto (self : t) (b : bytes) : result nat * bytes * t :=
  match _checkClosed self with
  | Raise e => (Raise e, b, self)
  | Ok _ =>
      let num := length b in
      match _buffer self with
      | None => (Raise no_len, b, self)
      | Some buffer0 =>
          let x := pull num (_iter self) buffer0 (_total self) in
          match exit_raised x with
          | Some e =>
              (Raise e, b,
               {| _iter := exit_iter x; _buffer := Some (exit_buffer x);
                  _total := exit_total x; closed := closed self |})
          | None =>
              let buffer := exit_buffer x in
              let num_buffered := length buffer in
              if num_buffered <=? num then
                (Ok num_buffered, set_prefix b num_buffered buffer,
                 {| _iter := exit_iter x; _buffer := Some [];
                    _total := exit_total x; closed := closed self |})
              else
                (Ok num, set_prefix b num (firstn num buffer),
                 {| _iter := exit_iter x; _buffer := Some (skipn num buffer);
                    _total := exit_total x; closed := closed self |})
          end
      end
  end.

End RawIterableReader.

(** ** open_iterable

    The two layers of the [io] module are outside this repository. Their
    constructors are taken as they are: what they raise on the arguments
    they are given, if anything. Neither constructor reads from the
    stream it wraps. *)

(** The objects [open_iterable] can return, by class. *)
Inductive file :=
| RawFile (raw : RawIterableReader.t)
| BufferedReader (raw : RawIterableReader.t) (buffer_size : Z)
| TextIOWrapper (buffer : file) (encoding errors newline : option string)
                (mode : string).

Definition is_not_None {A} (x : option A) : bool :=
  match x with Some _ => true | None => false end.

(** [set(mode)] *)
Definition set_of_str (s : string) : gset ascii :=
  list_to_set (list_ascii_of_string s).

(** The three flags [open_iterable] reads off the mode string. *)
Definition reading (mode : string) : bool :=
  bool_decide ("r"%char ∈ set_of_str mode).
Definition binary (mode : string) : bool :=
  bool_decide ("b"%char ∈ set_of_str mode).
Definition text (mode : string) : bool :=
  bool_decide ("t"%char ∈ set_of_str mode) || (reading mode && negb (binary mode)).

Section open_iterable.

Variable DEFAULT_BUFFER_SIZE : Z.
(** [io.BufferedReader(raw, buffer_size)]: [None] when it constructs. *)
Variable BufferedReader_init : Z -> option exn.
(** [io.TextIOWrapper(buffer, encoding, errors, newline)] *)
Variable TextIOWrapper_init :
  option string -> option string -> option string -> option exn.

(** Lines 131-150: the checks on the arguments. *)
Definition check_arguments (mode : string) (buffering : Z)
    (encoding errors newline : option string) : result unit :=
  let modes := set_of_str mode in
  if bool_decide (modes ∖ set_of_str "rtb" ≠ ∅)
     || (size modes <? String.length mode) then
    Raise (ValueError ("invalid mode: '" ++ mode ++ "'"))
  else if negb (reading mode) then
    Raise (ValueError "Must specify read mode")
  else if text mode && binary mode then
    Raise (ValueError "can't have text and binary mode at once")
  else if binary mode && is_not_None encoding then
    Raise (ValueError "binary mode doesn't take an encoding argument")
  else if binary mode && is_not_None errors then
    Raise (ValueError "binary mode doesn't take an errors argument")
  else if binary mode && is_not_None newline then
    Raise (ValueError "binary mode doesn't take a newline argument")
  else if text mode && (buffering =? 0)%Z then
    Raise (ValueError "can't have unbuffered text I/O")
  else Ok tt.

(** [buffering] as line 158-159 resolves it. *)
Definition block_size (buffering : Z) : Z :=
  if (buffering <? 0)%Z then DEFAULT_BUFFER_SIZE else buffering.

(** Lines 152-173: the layers. The [except:] clause closes the layers
    built so far and re-raises; the closed objects are not returned. *)
Definition compose (iterable : iterator) (mode : string) (buffering : Z)
    (encoding errors newline : option string) : result file :=
  let ret := RawIterableReader.__init__ iterable in
  if (buffering =? 0)%Z then Ok (RawFile ret)
  else
    let buffering := block_size buffering in
    match BufferedReader_init buffering with
    | Some e => Raise e
    | None =>
        let ret := BufferedReader ret buffering in
        if binary mode then Ok ret
        else
          match TextIOWrapper_init encoding errors newline with
          | Some e => Raise e
          | None => Ok (TextIOWrapper ret encoding errors newline mode)
          end
    end.

Definition open_iterable (iterable : iterator) (mode : string)
    (buffering : Z) (encoding errors newline : option string) : result file :=
  match check_arguments mode buffering encoding errors newline with
  | Raise e => Raise e
  | Ok _ => compose iterable mode buffering encoding errors newline
  end.

End open_iterable.

(** ** Callers

    [io.RawIOBase.read(size)] for [size >= 0], which [RawIterableReader]
    inherits: a zeroed buffer of [size] bytes is handed to [readinto] and
    cut to the count it returns. *)
Definition read (self : RawIterableReader.t) (size : nat)
    : result bytes * RawIterableReader.t :=
  let b := repeat x00 size in
  match RawIterableReader.readinto self b with
  | (Ok n, b', self') => (Ok (firstn n b'), self')
  | (Raise e, _, self') => (Raise e, self')
  end.

(** [while True: b = i.read(size); if not b: break; out.append(b)], the
    loop of [test_yield_empty_bytes] (and, with its pieces joined, of
    [RawIOBase.readall]). [None]: the fuel ran out first. *)
Fixpoint read_until_empty (fuel size : nat) (self : RawIterableReader.t)
    (out : list bytes) : option (result (list bytes) * RawIterableReader.t) :=
  match fuel with
  | O => None
  | S fuel' =>
      match read self size with
      | (Raise e, self') => Some (Raise e, self')
      | (Ok [], self') => Some (Ok out, self')
      | (Ok b, self') => read_until_empty fuel' size self' (out ++ [b])
      end
  end.

(** One [readinto] call as its caller sees it. *)
Record call := mk_call {
  returned : result nat;
  b_after : bytes;
  self_after : RawIterableReader.t
}.

(** Successive [readinto] calls, one per caller buffer of [bs]; the
    lengths of the buffers are the requested read lengths. *)
Fixpoint readinto_each (self : RawIterableReader.t) (bs : list bytes) : list call :=
  match bs with
  | [] => []
  | b :: bs' =>
      let '(r, b', self') := RawIterableReader.readinto self b in
      mk_call r b' self' :: readinto_each self' bs'
  end.

(** The bytes a call delivered: the first [n] bytes of [b] when it
    returned [n], nothing when it raised. *)
Definition delivered (c : call) : bytes :=
  match returned c with
  | Ok n => firstn n (b_after c)
  | Raise _ => []
  end.

(** The reader after a run of calls that started from [self]. *)
Definition reader_after (self : RawIterableReader.t) (cs : list call)
    : RawIterableReader.t :=
  List.last (map self_after cs) self.

(** The three operations of the class, for runs that mix them. *)
Inductive op :=
| Readinto (b : bytes)
| Tell
| Close.

Inductive answer :=
| Read_returned (r : result nat) (b' : bytes)
| Tell_returned (r : result Z)
| Close_returned.

Definition perform (self : RawIterableReader.t) (o : op)
    : answer * RawIterableReader.t :=
  match o with
  | Readinto b =>
      let '(r, b', self') := RawIterableReader.readinto self b in
      (Read_returned r b', self')
  | Tell => (Tell_returned (RawIterableReader.tell self), self)
  | Close => (Close_returned, RawIterableReader.close self)
  end.

Fixpoint perform_each (self : RawIterableReader.t) (os : list op)
    : list answer * RawIterableReader.t :=
  match os with
  | [] => ([], self)
  | o :: os' =>
      let '(a, self') := perform self o in
      let '(rest, self'') := perform_each self' os' in
      (a :: rest, self'')
  end.

(** ** Vocabulary of the statements *)

(** The chunks a producer has yet to yield before it signals exhaustion,
    joined. An exception other than [StopIteration] interrupts a call,
    not the producer. *)
Fixpoint to_come (it : iterator) : bytes :=
  match it with
  | [] => []
  | Yield chunk :: it' => chunk ++ to_come it'
  | Throw StopIteration :: _ => []
  | Throw _ :: it' => to_come it'
  end.

(** The same of the [_iter] attribute, [None] once the handle is gone. *)
Definition held (handle : option iterator) : bytes :=
  match handle with
  | Some it => to_come it
  | None => []
  end.

(** The bytes an open reader has yet to deliver: the pending buffer, then
    what the producer still holds. *)
Definition undelivered (self : RawIterableReader.t) : bytes :=
  match RawIterableReader._buffer self with
  | None => []
  | Some buffer => buffer ++ held (RawIterableReader._iter self)
  end.

(** [data] cut at the requested lengths, in order. *)
Fixpoint split_at (lengths : list nat) (data : bytes) : list bytes :=
  match lengths with
  | [] => []
  | n :: lengths' => firstn n data :: split_at lengths' (skipn n data)
  end.

Definition closed_error : exn := ValueError "I/O operation on closed file.".

(** An operation other than [close] fails with the closed-stream error. *)
Definition refused (a : answer) : Prop :=
  match a with
  | Read_returned r _ => r = Raise closed_error
  | Tell_returned r => r = Raise closed_error
  | Close_returned => True
  end.

(** [e] is an exception the producer has in store, other than its
    exhaustion signal. *)
Definition producer_raises (iterable : iterator) (e : exn) : Prop :=
  e <> StopIteration /\ In (Throw e) iterable.

(** The only ways an operation on a reader over [iterable] may fail. *)
Definition fails_as_expected (iterable : iterator) (a : answer) : Prop :=
  match a with
  | Read_returned (Raise e) _ => e = closed_error \/ producer_raises iterable e
  | Tell_returned (Raise e) => e = closed_error
  | _ => True
  end.

(** The same on a reader that is not closed. *)
Definition fails_by_producer (iterable : iterator) (a : answer) : Prop :=
  match a with
  | Read_returned (Raise e) _ => producer_raises iterable e
  | Tell_returned (Raise e) => False
  | _ => True
  end.

(** A chunk-only producer: no [next] call raises before exhaustion. *)
Definition chunks_only (it : iterator) : Prop :=
  Forall (fun ev => match ev with Yield _ => True | Throw _ => False end) it.

(** A reader whose producer, if it still holds one, is chunk-only. *)
Definition quiet (handle : option iterator) : Prop :=
  match handle with
  | Some it => chunks_only it
  | None => True
  end.

(** Not closed, with its pending buffer in place. *)
Definition is_open (self : RawIterableReader.t) : Prop :=
  RawIterableReader.closed self = false
  /\ RawIterableReader._buffer self <> None.

(** * Properties *)

Import RawIterableReader.

(** ** The pull loop *)

(** The loop as the source writes it, through [next]. *)
Lemma readinto_loop_next num it buffer total :
  readinto_loop num it buffer total =
  if length buffer <? num then
    match next it with
    | (Raise StopIteration, _) => mk_exit None buffer total None
    | (Raise e, it') => mk_exit (Some it') buffer total (Some e)
    | (Ok new, it') =>
        readinto_loop num it' (buffer ++ new) (total + length new)
    end
  else mk_exit (Some it) buffer total None.
Proof. destruct it as [|[chunk|[]] it']; reflexivity. Qed.

Lemma readinto_loop_enough num it buffer total :
  num <= length buffer ->
  readinto_loop num it buffer total = mk_exit (Some it) buffer total None.
Proof.
  intros Hle. rewrite readinto_loop_next.
  destruct (Nat.ltb_spec (length buffer) num); [lia | reflexivity].
Qed.

(** Nothing is lost or reordered by the loop, and the count follows. *)
Lemma readinto_loop_keeps num it : forall buffer total,
  let x := readinto_loop num it buffer total in
  exit_buffer x ++ held (exit_iter x) = buffer ++ to_come it
  /\ exit_total x + length buffer = total + length (exit_buffer x).
Proof.
  induction it as [|ev it' IH]; intros buffer total; cbn zeta.
  - simpl. destruct (length buffer <? num); simpl; split; auto; lia.
  - simpl. destruct (Nat.ltb_spec (length buffer) num) as [Hlt|Hge].
    + destruct ev as [chunk|e].
      * destruct (IH (buffer ++ chunk) (total + length chunk)) as [Hs Ht].
        split.
        -- rewrite Hs. simpl. now rewrite <- app_assoc.
        -- rewrite length_app in Ht. lia.
      * destruct e; simpl; split; auto; lia.
    + simpl. split; auto; lia.
Qed.

(** The loop ends for one of three reasons. *)
Lemma readinto_loop_ends num it : forall buffer total,
  let x := readinto_loop num it buffer total in
  match exit_raised x with
  | Some e => e <> StopIteration /\ length (exit_buffer x) < num
              /\ exists it', exit_iter x = Some it'
  | None => (num <= length (exit_buffer x) /\ exists it', exit_iter x = Some it')
            \/ (length (exit_buffer x) < num /\ exit_iter x = None)
  end.
Proof.
  induction it as [|ev it' IH]; intros buffer total; cbn zeta; simpl.
  - destruct (Nat.ltb_spec (length buffer) num); simpl; [right | left]; eauto.
  - destruct (Nat.ltb_spec (length buffer) num) as [Hlt|Hge].
    + destruct ev as [chunk|e]; [apply IH|].
      destruct e; simpl; eauto; (split; [discriminate | eauto]).
    + simpl. left. eauto.
Qed.

Lemma pull_keeps num handle buffer total :
  let x := pull num handle buffer total in
  exit_buffer x ++ held (exit_iter x) = buffer ++ held handle
  /\ exit_total x + length buffer = total + length (exit_buffer x).
Proof.
  destruct handle as [it|]; simpl.
  - apply readinto_loop_keeps.
  - split; auto; lia.
Qed.

Lemma pull_ends num handle buffer total :
  let x := pull num handle buffer total in
  match exit_raised x with
  | Some e => e <> StopIteration /\ length (exit_buffer x) < num
              /\ exists it', exit_iter x = Some it'
  | None => num <= length (exit_buffer x)
            \/ (length (exit_buffer x) < num /\ exit_iter x = None)
  end.
Proof.
  destruct handle as [it|]; simpl.
  - pose proof (readinto_loop_ends num it buffer total) as H. cbn zeta in H.
    destruct (exit_raised _); [exact H|]. destruct H as [[H _]|H]; auto.
  - destruct (Nat.le_gt_cases num (length buffer)); auto.
Qed.

(** ** readinto, one call *)

Lemma readinto_closed self b :
  closed self = true -> readinto self b = (Raise closed_error, b, self).
Proof. intros H. unfold readinto, _checkClosed. now rewrite H. Qed.

Lemma tell_closed self : closed self = true -> tell self = Raise closed_error.
Proof. intros H. unfold tell, _checkClosed. now rewrite H. Qed.

(** A call that returns: what it delivers and what it leaves. *)
Lemma readinto_returns self b n b' self' :
  readinto self b = (Ok n, b', self') ->
  closed self = false /\ closed self' = false
  /\ n = Nat.min (length b) (length (undelivered self))
  /\ b' = firstn n (undelivered self) ++ skipn n b
  /\ undelivered self' = skipn n (undelivered self)
  /\ (exists buffer buffer',
        _buffer self = Some buffer /\ _buffer self' = Some buffer'
        /\ _total self' + length buffer = _total self + length buffer' + n)
  /\ (n < length b -> _iter self' = None /\ _buffer self' = Some []).
Proof.
  unfold readinto, _checkClosed.
  destruct (closed self) eqn:Hc; [discriminate|].
  destruct (_buffer self) as [buffer0|] eqn:Hb; [|discriminate].
  pose proof (pull_keeps (length b) (_iter self) buffer0 (_total self)) as Hk.
  pose proof (pull_ends (length b) (_iter self) buffer0 (_total self)) as He.
  cbn zeta in Hk, He.
  destruct (pull (length b) (_iter self) buffer0 (_total self))
    as [h buf tot raised]. simpl in *.
  destruct Hk as [Hs Ht].
  assert (Hu : undelivered self = buf ++ held h).
  { unfold undelivered. now rewrite Hb, Hs. }
  destruct raised as [e|]; [discriminate|].
  destruct (Nat.leb_spec (length buf) (length b)) as [Hle|Hgt];
    intros [= <- <- <-]; simpl.
  - assert (Hh : length b = length buf \/ h = None) by (destruct He; [left|right]; [lia|tauto]).
    assert (Hn : length buf = Nat.min (length b) (length (undelivered self))).
    { rewrite Hu, length_app. destruct Hh as [Hh|Hh]; [lia|]. subst h. simpl. lia. }
    repeat split; auto.
    + rewrite Hu. unfold set_prefix. f_equal.
      rewrite firstn_app, Nat.sub_diag, firstn_all. simpl. now rewrite app_nil_r.
    + rewrite Hu. unfold undelivered. simpl.
      rewrite skipn_app, Nat.sub_diag, skipn_all. reflexivity.
    + exists buffer0, []. simpl. repeat split; auto. lia.
    + destruct He as [He|He]; [lia|tauto].
  - assert (Hn : length b = Nat.min (length b) (length (undelivered self))).
    { rewrite Hu, length_app. lia. }
    repeat split; auto.
    + rewrite Hu. unfold set_prefix. f_equal.
      rewrite firstn_app. replace (length b - length buf) with 0 by lia.
      simpl. now rewrite app_nil_r.
    + rewrite Hu. unfold undelivered. simpl.
      rewrite skipn_app. replace (length b - length buf) with 0 by lia.
      reflexivity.
    + exists buffer0, (skipn (length b) buf). repeat split; auto.
      rewrite length_skipn. lia.
    + lia.
    + lia.
Qed.

(** A call that raises leaves the caller's buffer alone; on an open
    reader the exception is the producer's and no byte is dropped. *)
Lemma readinto_raises self b e b' self' :
  readinto self b = (Raise e, b', self') ->
  b' = b /\ closed self' = closed self
  /\ (closed self = true -> e = closed_error /\ self' = self)
  /\ (forall buffer, closed self = false -> _buffer self = Some buffer ->
        e <> StopIteration
        /\ undelivered self' = undelivered self
        /\ (exists it', _iter self' = Some it')
        /\ exists buffer', _buffer self' = Some buffer'
             /\ _total self' + length buffer = _total self + length buffer').
Proof.
  unfold readinto, _checkClosed.
  destruct (closed self) eqn:Hc.
  { intros [= <- <- <-]. repeat split; auto; discriminate. }
  destruct (_buffer self) as [buffer0|] eqn:Hb.
  2:{ intros [= <- <- <-]. repeat split; auto; discriminate. }
  pose proof (pull_keeps (length b) (_iter self) buffer0 (_total self)) as Hk.
  pose proof (pull_ends (length b) (_iter self) buffer0 (_total self)) as He.
  cbn zeta in Hk, He.
  destruct (pull (length b) (_iter self) buffer0 (_total self))
    as [h buf tot raised]. simpl in *.
  destruct Hk as [Hs Ht].
  destruct raised as [e0|].
  - intros [= <- <- <-]. simpl. destruct He as (Hne & _ & it' & ->).
    split; [reflexivity|]. split; [reflexivity|]. split; [discriminate|].
    intros buffer _ [= <-]. split; [exact Hne|]. split.
    { unfold undelivered. simpl. rewrite Hb. exact Hs. }
    split; [eauto|]. exists buf. split; auto.
  - destruct (length buf <=? length b); discriminate.
Qed.

(** ** Chunk-only producers *)

Lemma to_come_chunks chunks : to_come (map Yield chunks) = concat chunks.
Proof. induction chunks as [|c cs IH]; simpl; [|rewrite IH]; reflexivity. Qed.

Lemma chunks_only_map chunks : chunks_only (map Yield chunks).
Proof. induction chunks; constructor; auto. Qed.

Lemma readinto_loop_chunks_only num it : forall buffer total,
  chunks_only it ->
  let x := readinto_loop num it buffer total in
  exit_raised x = None /\ quiet (exit_iter x).
Proof.
  induction it as [|ev it' IH]; intros buffer total Hq; cbn zeta; simpl.
  - destruct (length buffer <? num); simpl; auto.
  - destruct (length buffer <? num); simpl; auto.
    inversion Hq as [|? ? Hev Hq']; subst.
    destruct ev as [chunk|e]; [|contradiction]. apply IH, Hq'.
Qed.

(** On an open reader fed by chunks alone, every call returns. *)
Lemma readinto_chunks_only self b :
  is_open self -> quiet (_iter self) ->
  exists n b' self',
    readinto self b = (Ok n, b', self') /\ is_open self' /\ quiet (_iter self').
Proof.
  intros [Hc Hb] Hq. unfold readinto, _checkClosed. rewrite Hc.
  destruct (_buffer self) as [buffer0|]; [|contradiction].
  assert (Hx : let x := pull (length b) (_iter self) buffer0 (_total self) in
               exit_raised x = None /\ quiet (exit_iter x)).
  { destruct (_iter self) as [it|]; simpl; auto.
    apply readinto_loop_chunks_only, Hq. }
  cbn zeta in Hx.
  destruct (pull (length b) (_iter self) buffer0 (_total self))
    as [h buf tot raised]. simpl in *. destruct Hx as [-> Hq'].
  destruct (length buf <=? length b); do 3 eexists;
    (split; [reflexivity|]); (split; [split|]); simpl; auto; discriminate.
Qed.

(** ** Runs of calls *)

Lemma split_at_concat lengths : forall data,
  concat (split_at lengths data) = firstn (list_sum lengths) data.
Proof.
  induction lengths as [|n ls IH]; intros data; simpl; [reflexivity|].
  rewrite IH. apply take_take_drop.
Qed.

Lemma firstn_min_length {A} n (l : list A) :
  firstn (Nat.min n (length l)) l = firstn n l.
Proof.
  destruct (Nat.le_gt_cases n (length l)) as [H|H].
  - now rewrite Nat.min_l.
  - rewrite Nat.min_r by lia. now rewrite !firstn_all2 by lia.
Qed.

Lemma skipn_min_length {A} n (l : list A) :
  skipn (Nat.min n (length l)) l = skipn n l.
Proof.
  destruct (Nat.le_gt_cases n (length l)) as [H|H].
  - now rewrite Nat.min_l.
  - rewrite Nat.min_r by lia. now rewrite !skipn_all2 by lia.
Qed.

(** What a returning call delivered, read off the caller's buffer. *)
Lemma delivered_returns self b n b' self' :
  readinto self b = (Ok n, b', self') ->
  delivered (mk_call (Ok n) b' self') = firstn (length b) (undelivered self)
  /\ undelivered self' = skipn (length b) (undelivered self).
Proof.
  intros H. apply readinto_returns in H.
  destruct H as (_ & _ & Hn & Hb' & Hu & _). unfold delivered. simpl.
  rewrite Hu, Hb'. rewrite Hn at 3 4. rewrite skipn_min_length.
  split; [|reflexivity].
  rewrite firstn_app, firstn_firstn, Nat.min_id.
  replace (n - length (firstn n (undelivered self))) with 0.
  - simpl. rewrite app_nil_r. rewrite Hn. apply firstn_min_length.
  - rewrite length_firstn. lia.
Qed.

Lemma readinto_each_chunks_only bs : forall self,
  is_open self -> quiet (_iter self) ->
  Forall (fun c => exists n, returned c = Ok n) (readinto_each self bs)
  /\ map delivered (readinto_each self bs)
     = split_at (map length bs) (undelivered self).
Proof.
  induction bs as [|b bs IH]; intros self Ho Hq; simpl.
  - split; [constructor | reflexivity].
  - destruct (readinto_chunks_only self b Ho Hq) as (n & b' & self' & Hr & Ho' & Hq').
    rewrite Hr. destruct (IH self' Ho' Hq') as [Hall Hmap].
    destruct (delivered_returns _ _ _ _ _ Hr) as [Hd Hu].
    split.
    + constructor; [simpl; eauto | exact Hall].
    + simpl. rewrite Hmap, Hu. f_equal. exact Hd.
Qed.

Lemma init_is_open iterable : is_open (__init__ iterable).
Proof. split; simpl; [reflexivity | discriminate]. Qed.

Lemma init_undelivered iterable : undelivered (__init__ iterable) = to_come iterable.
Proof. reflexivity. Qed.

(** C1. Concatenation correctness: a producer yields the chunks
    [c1, ..., cn] and then stops; the stream is read by successive
    [readinto] calls of any requested lengths. No call raises, the i-th
    call delivers the next slice of [c1 ++ ... ++ cn], cut at the requested
    length, so the deliveries joined are its first (sum of the requests)
    bytes, and they are [c1 ++ ... ++ cn] itself once the requests reach
    its length. *)
Theorem concatenation_correctness (chunks bs : list bytes) :
  let cs := readinto_each (__init__ (map Yield chunks)) bs in
  Forall (fun c => exists n, returned c = Ok n) cs
  /\ map delivered cs = split_at (map length bs) (concat chunks)
  /\ concat (map delivered cs)
     = firstn (list_sum (map length bs)) (concat chunks)
  /\ (length (concat chunks) <= list_sum (map length bs) ->
      concat (map delivered cs) = concat chunks).
Proof.
  cbn zeta.
  destruct (readinto_each_chunks_only bs (__init__ (map Yield chunks))
              (init_is_open _) (chunks_only_map chunks)) as [Hall Hmap].
  rewrite init_undelivered, to_come_chunks in Hmap.
  split; [exact Hall|]. split; [exact Hmap|].
  rewrite Hmap, split_at_concat. split; [reflexivity|].
  intros Hle. now apply firstn_all2.
Qed.

Lemma concatenation_correctness_witness :
  length (concat [[x61; x62]; []; [x63]]) <= list_sum (map length [[x00]; []; [x00; x00; x00]])
  /\ concat (map delivered
       (readinto_each (__init__ (map Yield [[x61; x62]; []; [x63]]))
          [[x00]; []; [x00; x00; x00]]))
     = concat [[x61; x62]; []; [x63]].
Proof.
  split; [simpl; lia|].
  apply (concatenation_correctness [[x61; x62]; []; [x63]] [[x00]; []; [x00; x00; x00]]).
  simpl; lia.
Defined.

(** ** Position *)

Lemma tell_open self :
  is_open self ->
  exists buffer, _buffer self = Some buffer
    /\ tell self = Ok (Z.of_nat (_total self) - Z.of_nat (length buffer))%Z.
Proof.
  intros [Hc Hb]. unfold tell, _checkClosed. rewrite Hc.
  destruct (_buffer self) as [buffer|]; [eauto | contradiction].
Qed.

Lemma delivered_length self b n b' self' :
  readinto self b = (Ok n, b', self') ->
  length (delivered (mk_call (Ok n) b' self')) = n.
Proof.
  intros H. apply readinto_returns in H.
  destruct H as (_ & _ & Hn & Hb' & _). unfold delivered. simpl.
  rewrite Hb', length_firstn, length_app, length_firstn, length_skipn.
  lia.
Qed.

(** One call moves the position by what it delivered, whether it returns
    or raises. *)
Lemma readinto_position self b r b' self' :
  is_open self ->
  readinto self b = (r, b', self') ->
  is_open self'
  /\ forall p, tell self = Ok p ->
       tell self' = Ok (p + Z.of_nat (length (delivered (mk_call r b' self'))))%Z.
Proof.
  intros Ho Hr. destruct (tell_open self Ho) as (buffer & Hb & Ht).
  destruct Ho as [Hc Hnn]. destruct r as [n|e].
  - pose proof (delivered_length _ _ _ _ _ Hr) as Hlen.
    apply readinto_returns in Hr.
    destruct Hr as (_ & Hc' & _ & _ & _ & (buf0 & buf' & Hb0 & Hb' & Htot) & _).
    assert (Ho' : is_open self') by (split; [auto | rewrite Hb'; discriminate]).
    split; [exact Ho'|]. intros p Hp.
    destruct (tell_open self' Ho') as (buf'' & Hb'' & Ht').
    rewrite Ht', Hlen. rewrite Ht in Hp. injection Hp as <-.
    f_equal. rewrite Hb0 in Hb. rewrite Hb' in Hb''.
    injection Hb as <-. injection Hb'' as <-. lia.
  - apply readinto_raises in Hr.
    destruct Hr as (_ & Hc' & _ & Hopen).
    destruct (Hopen buffer Hc Hb) as (_ & _ & _ & buf' & Hb' & Htot).
    assert (Ho' : is_open self').
    { split; [congruence | rewrite Hb'; discriminate]. }
    split; [exact Ho'|]. intros p Hp.
    destruct (tell_open self' Ho') as (buf'' & Hb'' & Ht').
    rewrite Ht'. rewrite Ht in Hp. injection Hp as <-.
    unfold delivered. simpl. f_equal. rewrite Hb' in Hb''.
    injection Hb'' as <-. lia.
Qed.

Lemma reader_after_cons self c cs :
  reader_after self (c :: cs) = reader_after (self_after c) cs.
Proof.
  unfold reader_after. simpl. destruct (map self_after cs) eqn:E; [reflexivity|].
  clear E. revert t0. induction l as [|x l IH]; intros y; simpl; [reflexivity|].
  apply IH.
Qed.

Lemma readinto_each_position bs : forall self k p,
  is_open self -> tell self = Ok p ->
  let cs := firstn k (readinto_each self bs) in
  is_open (reader_after self cs)
  /\ tell (reader_after self cs)
     = Ok (p + Z.of_nat (length (concat (map delivered cs))))%Z.
Proof.
  induction bs as [|b bs IH]; intros self k p Ho Hp; cbn zeta.
  - simpl. rewrite firstn_nil. unfold reader_after. simpl.
    split; [exact Ho|]. rewrite Hp. f_equal. lia.
  - simpl. destruct (readinto self b) as [[r b'] self'] eqn:Hr.
    destruct k as [|k]; simpl firstn.
    + unfold reader_after. simpl. split; [exact Ho|]. rewrite Hp. f_equal. lia.
    + rewrite reader_after_cons. simpl self_after.
      destruct (readinto_position _ _ _ _ _ Ho Hr) as [Ho' Hstep].
      destruct (IH self' k _ Ho' (Hstep p Hp)) as [Ho'' Ht]. cbn zeta in Ho'', Ht.
      split; [exact Ho''|]. rewrite Ht. f_equal.
      simpl. rewrite length_app. lia.
Qed.

(** C2. Position invariant: take any producer (chunks, errors, early
    exhaustion) and any run of [readinto] calls on a fresh reader. After
    each call, that is after the first [k] calls for every [k], [tell()]
    returns the number of bytes delivered to the caller so far, and that
    number is [_total - len(_buffer)]. *)
Theorem position_invariant (iterable : iterator) (bs : list bytes) (k : nat) :
  let cs := firstn k (readinto_each (__init__ iterable) bs) in
  let self := reader_after (__init__ iterable) cs in
  let so_far := length (concat (map delivered cs)) in
  tell self = Ok (Z.of_nat so_far)
  /\ exists buffer, _buffer self = Some buffer
       /\ Z.of_nat so_far
          = (Z.of_nat (_total self) - Z.of_nat (length buffer))%Z.
Proof.
  cbn zeta.
  destruct (readinto_each_position bs (__init__ iterable) k 0%Z
              (init_is_open iterable) eq_refl) as [Ho Ht].
  cbn zeta in Ho, Ht. rewrite Z.add_0_l in Ht.
  split; [exact Ht|].
  destruct (tell_open _ Ho) as (buffer & Hb & Ht').
  exists buffer. split; [exact Hb|]. congruence.
Qed.

(** ** Reading to the end *)

Lemma read_chunks_only self size :
  is_open self -> quiet (_iter self) ->
  exists self',
    read self size = (Ok (firstn size (undelivered self)), self')
    /\ is_open self' /\ quiet (_iter self')
    /\ undelivered self' = skipn size (undelivered self).
Proof.
  intros Ho Hq. unfold read.
  destruct (readinto_chunks_only self (repeat x00 size) Ho Hq)
    as (n & b' & self' & Hr & Ho' & Hq').
  rewrite Hr. destruct (delivered_returns _ _ _ _ _ Hr) as [Hd Hu].
  unfold delivered in Hd. simpl in Hd. rewrite repeat_length in Hd, Hu.
  exists self'. rewrite Hd. auto.
Qed.

(** With enough fuel the loop reaches the empty read, and its pieces are
    all that was left, none of them empty. *)
Lemma read_until_empty_chunks_only size fuel : forall self out,
  0 < size -> is_open self -> quiet (_iter self) ->
  length (undelivered self) < fuel ->
  exists pieces self',
    read_until_empty fuel size self out = Some (Ok (out ++ pieces), self')
    /\ concat pieces = undelivered self
    /\ Forall (fun piece => piece <> []) pieces.
Proof.
  induction fuel as [|fuel IH]; intros self out Hsize Ho Hq Hfuel; [lia|].
  simpl. destruct (read_chunks_only self size Ho Hq) as (self' & Hr & Ho' & Hq' & Hu).
  rewrite Hr.
  destruct (firstn size (undelivered self)) as [|x piece] eqn:Hpiece.
  - exists [], self'. rewrite app_nil_r. split; [reflexivity|].
    split; [|constructor].
    destruct (undelivered self); [reflexivity|].
    destruct size; [lia | discriminate].
  - assert (Hlen : length (undelivered self') < fuel).
    { rewrite Hu, length_skipn.
      assert (length (firstn size (undelivered self)) <> 0) by (rewrite Hpiece; discriminate).
      rewrite length_firstn in H. lia. }
    destruct (IH self' (out ++ [x :: piece]) Hsize Ho' Hq' Hlen)
      as (pieces & self'' & Hrun & Hcat & Hne).
    exists ((x :: piece) :: pieces), self''.
    split; [rewrite <- app_assoc in Hrun; exact Hrun|].
    split; [|constructor; [discriminate | exact Hne]].
    change (concat ((x :: piece) :: pieces)) with ((x :: piece) ++ concat pieces).
    rewrite Hcat, Hu, <- Hpiece. apply firstn_skipn.
Qed.

(** Empty chunks ahead of the producer are pulled through. *)
Lemma readinto_loop_skips_empty num k rest buffer total :
  length buffer < num ->
  readinto_loop num (repeat (Yield []) k ++ rest) buffer total
  = readinto_loop num rest buffer total.
Proof.
  intros Hlt. induction k as [|k IH]; [reflexivity|].
  simpl repeat. simpl app. rewrite readinto_loop_next. simpl next.
  destruct (Nat.ltb_spec (length buffer) num); [|lia].
  rewrite app_nil_r, Nat.add_0_r. exact IH.
Qed.

(** C3. Zero-chunk tolerance. (1) The pull loop, still short of the
    requested length, pulls through any number of empty chunks and goes on
    with what the producer has after them: an empty chunk does not end the
    loop and does not release the producer. (2) Reading a chunk-only
    producer to the end, [read(size)] until the empty read, returns with
    all its chunks joined, wherever the empty ones are. (3) The producer
    [b"1", b"", b"", b"2"] read to the end gives [b"12"], by the
    read-until-empty loop of any positive size and by any run of
    [readinto] calls that asks for at least two bytes. *)
Theorem zero_chunk_tolerance :
  (forall num k rest buffer total,
     length buffer < num ->
     readinto_loop num (repeat (Yield []) k ++ rest) buffer total
     = readinto_loop num rest buffer total)
  /\ (forall chunks size fuel,
        0 < size -> length (concat chunks) < fuel ->
        exists pieces self',
          read_until_empty fuel size (__init__ (map Yield chunks)) []
          = Some (Ok pieces, self')
          /\ concat pieces = concat chunks)
  /\ (forall size fuel,
        0 < size -> 2 < fuel ->
        exists pieces self',
          read_until_empty fuel size
            (__init__ [Yield [x31]; Yield []; Yield []; Yield [x32]]) []
          = Some (Ok pieces, self')
          /\ concat pieces = [x31; x32])
  /\ (forall bs,
        2 <= list_sum (map length bs) ->
        concat (map delivered
          (readinto_each
             (__init__ [Yield [x31]; Yield []; Yield []; Yield [x32]]) bs))
        = [x31; x32]).
Proof.
  assert (Hall : forall chunks size fuel,
            0 < size -> length (concat chunks) < fuel ->
            exists pieces self',
              read_until_empty fuel size (__init__ (map Yield chunks)) []
              = Some (Ok pieces, self')
              /\ concat pieces = concat chunks).
  { intros chunks size fuel Hsize Hfuel.
    destruct (read_until_empty_chunks_only size fuel (__init__ (map Yield chunks)) []
                Hsize (init_is_open _) (chunks_only_map chunks))
      as (pieces & self' & Hrun & Hcat & _).
    - now rewrite init_undelivered, to_come_chunks.
    - exists pieces, self'. split; [exact Hrun|].
      now rewrite Hcat, init_undelivered, to_come_chunks. }
  split; [exact readinto_loop_skips_empty|].
  split; [exact Hall|]. split.
  - intros size fuel Hsize Hfuel.
    apply (Hall [[x31]; []; []; [x32]] size fuel Hsize). simpl. lia.
  - intros bs Hsum.
    destruct (readinto_each_chunks_only bs
                (__init__ (map Yield [[x31]; []; []; [x32]]))
                (init_is_open _) (chunks_only_map _)) as [_ Hmap].
    rewrite init_undelivered, to_come_chunks in Hmap.
    change (map Yield [[x31]; []; []; [x32]])
      with [Yield [x31]; Yield []; Yield []; Yield [x32]] in Hmap.
    rewrite Hmap, split_at_concat.
    apply firstn_all2. simpl. lia.
Qed.

Lemma zero_chunk_tolerance_witness :
  read_until_empty 3 1
    (__init__ [Yield [x31]; Yield []; Yield []; Yield [x32]]) []
  = Some (Ok [[x31]; [x32]],
          mk None (Some []) 2 false)
  /\ exists pieces self',
       read_until_empty 3 1
         (__init__ [Yield [x31]; Yield []; Yield []; Yield [x32]]) []
       = Some (Ok pieces, self')
       /\ concat pieces = [x31; x32].
Proof.
  split; [reflexivity|].
  destruct zero_chunk_tolerance as (_ & _ & H & _).
  apply (H 1 3); lia.
Defined.

(** ** End of stream *)

(** A reader whose producer is gone and whose buffer is empty answers
    every call with 0 and stays as it is. *)
Lemma readinto_at_end self b :
  closed self = false -> _iter self = None -> _buffer self = Some [] ->
  readinto self b = (Ok 0, b, self).
Proof.
  destruct self as [h buf tot c]. simpl. intros -> -> ->. reflexivity.
Qed.

(** C4. End-of-stream idempotence: once a [readinto] call has returned
    fewer bytes than its buffer asked for (which it only does with the
    producer exhausted and nothing pending), every later call, of any
    requested length, returns 0 without raising, writes nothing into the
    caller's buffer and leaves the reader as it is. *)
Theorem end_of_stream_idempotence self b n b' self' (bs : list bytes) :
  readinto self b = (Ok n, b', self') ->
  n < length b ->
  _iter self' = None
  /\ readinto_each self' bs = map (fun b2 => mk_call (Ok 0) b2 self') bs.
Proof.
  intros Hr Hlt. apply readinto_returns in Hr.
  destruct Hr as (_ & Hc' & _ & _ & _ & _ & Hend).
  destruct (Hend Hlt) as [Hi Hb]. split; [exact Hi|].
  induction bs as [|b2 bs IH]; simpl; [reflexivity|].
  rewrite (readinto_at_end self' b2 Hc' Hi Hb). now rewrite IH.
Qed.

Lemma end_of_stream_idempotence_witness :
  readinto (__init__ [Yield [x61]]) [x00; x00; x00]
  = (Ok 1, [x61; x00; x00], mk None (Some []) 1 false)
  /\ 1 < length [x00; x00; x00]
  /\ readinto_each (mk None (Some []) 1 false) [[x00]; []; [x00; x00]]
     = map (fun b2 => mk_call (Ok 0) b2 (mk None (Some []) 1 false))
         [[x00]; []; [x00; x00]].
Proof.
  split; [reflexivity|]. split; [simpl; lia|].
  apply (end_of_stream_idempotence (__init__ [Yield [x61]]) [x00; x00; x00]
           1 [x61; x00; x00] (mk None (Some []) 1 false)
           [[x00]; []; [x00; x00]]).
  - reflexivity.
  - simpl; lia.
Defined.

(** ** open_iterable *)

Section open_iterable_properties.

Variable DEFAULT_BUFFER_SIZE : Z.
Variable BufferedReader_init : Z -> option exn.
Variable TextIOWrapper_init :
  option string -> option string -> option string -> option exn.

Local Abbreviation open_iterable' :=
  (open_iterable DEFAULT_BUFFER_SIZE BufferedReader_init TextIOWrapper_init).

(** A failed check is the failure of the call, raised with no reader
    constructed. *)
Lemma open_iterable_refuses iterable mode buffering encoding errors newline e :
  check_arguments mode buffering encoding errors newline = Raise e ->
  open_iterable' iterable mode buffering encoding errors newline = Raise e.
Proof. intros H. unfold open_iterable. now rewrite H. Qed.

(** C5. Mode validation table. The modes [""], ["abc"] and ["rtb"], and
    the mode ["rt"] with [buffering=0], fail the checks on the arguments
    with a [ValueError], whatever the other arguments and the iterable
    are, so before a reader exists to pull from it. The modes ["r"],
    ["rt"] and ["rb"] with the default arguments pass the checks, and
    [open_iterable] returns a stream object for them once the [io]
    layers it builds at those arguments construct. *)
Theorem mode_validation_table (iterable : iterator) :
  (forall buffering encoding errors newline,
     check_arguments "" buffering encoding errors newline
     = Raise (ValueError "Must specify read mode")
     /\ open_iterable' iterable "" buffering encoding errors newline
        = Raise (ValueError "Must specify read mode"))
  /\ (forall buffering encoding errors newline,
        check_arguments "abc" buffering encoding errors newline
        = Raise (ValueError "invalid mode: 'abc'")
        /\ open_iterable' iterable "abc" buffering encoding errors newline
           = Raise (ValueError "invalid mode: 'abc'"))
  /\ (forall buffering encoding errors newline,
        check_arguments "rtb" buffering encoding errors newline
        = Raise (ValueError "can't have text and binary mode at once")
        /\ open_iterable' iterable "rtb" buffering encoding errors newline
           = Raise (ValueError "can't have text and binary mode at once"))
  /\ (forall encoding errors newline,
        check_arguments "rt" 0 encoding errors newline
        = Raise (ValueError "can't have unbuffered text I/O")
        /\ open_iterable' iterable "rt" 0 encoding errors newline
           = Raise (ValueError "can't have unbuffered text I/O"))
  /\ check_arguments "r" (-1) None None None = Ok tt
  /\ check_arguments "rt" (-1) None None None = Ok tt
  /\ check_arguments "rb" (-1) None None None = Ok tt
  /\ (BufferedReader_init DEFAULT_BUFFER_SIZE = None ->
      TextIOWrapper_init None None None = None ->
      open_iterable' iterable "r" (-1) None None None
      = Ok (TextIOWrapper
              (BufferedReader (__init__ iterable) DEFAULT_BUFFER_SIZE)
              None None None "r")
      /\ open_iterable' iterable "rt" (-1) None None None
         = Ok (TextIOWrapper
                 (BufferedReader (__init__ iterable) DEFAULT_BUFFER_SIZE)
                 None None None "rt")
      /\ open_iterable' iterable "rb" (-1) None None None
         = Ok (BufferedReader (__init__ iterable) DEFAULT_BUFFER_SIZE)).
Proof.
  assert (H1 : forall buffering encoding errors newline,
            check_arguments "" buffering encoding errors newline
            = Raise (ValueError "Must specify read mode")) by reflexivity.
  assert (H2 : forall buffering encoding errors newline,
            check_arguments "abc" buffering encoding errors newline
            = Raise (ValueError "invalid mode: 'abc'")) by reflexivity.
  assert (H3 : forall buffering encoding errors newline,
            check_arguments "rtb" buffering encoding errors newline
            = Raise (ValueError "can't have text and binary mode at once"))
    by reflexivity.
  assert (H4 : forall encoding errors newline,
            check_arguments "rt" 0 encoding errors newline
            = Raise (ValueError "can't have unbuffered text I/O")) by reflexivity.
  split; [intros; split; [|apply open_iterable_refuses]; apply H1|].
  split; [intros; split; [|apply open_iterable_refuses]; apply H2|].
  split; [intros; split; [|apply open_iterable_refuses]; apply H3|].
  split; [intros; split; [|apply open_iterable_refuses]; apply H4|].
  do 3 (split; [reflexivity|]).
  intros HB HT.
  assert (Hr : check_arguments "r" (-1) None None None = Ok tt) by reflexivity.
  assert (Hrt : check_arguments "rt" (-1) None None None = Ok tt) by reflexivity.
  assert (Hrb : check_arguments "rb" (-1) None None None = Ok tt) by reflexivity.
  unfold open_iterable. rewrite Hr, Hrt, Hrb.
  unfold compose, block_size. simpl. rewrite HB, HT.
  repeat split; reflexivity.
Qed.

(** What passing the checks says about the flags and [buffering]. *)
Lemma check_arguments_passed mode buffering encoding errors newline :
  check_arguments mode buffering encoding errors newline = Ok tt ->
  reading mode = true
  /\ text mode = negb (binary mode)
  /\ (text mode = true -> buffering <> 0%Z).
Proof.
  unfold check_arguments.
  destruct (_ || _); [discriminate|].
  destruct (reading mode) eqn:Hr; [|discriminate]. simpl.
  assert (Ht : binary mode = false -> text mode = true).
  { intros Hb. unfold text. rewrite Hr, Hb. apply orb_true_r. }
  destruct (binary mode) eqn:Hb.
  - destruct (text mode); [discriminate|]. simpl. intros _.
    repeat split; auto; discriminate.
  - rewrite Ht by reflexivity. simpl.
    destruct (Z.eqb_spec buffering 0); [discriminate|]. auto.
Qed.

(** C6, as the code has it. Layer selection. For every configuration
    that passes the checks, text mode is exactly the absence of ['b'], and
    the class of the returned object follows from the mode and
    [buffering]: [buffering=0] (then the mode is binary) returns the
    [RawIterableReader] itself; [buffering<>0] with a binary mode returns
    an [io.BufferedReader] over it, of the resolved block size; text
    mode (never with [buffering=0]) returns an [io.TextIOWrapper] over
    that [io.BufferedReader], tagged with the mode string. The two [io]
    classes are returned when their constructors accept the arguments
    they are given; when one of them raises, [open_iterable] raises the
    same exception and returns no object. *)
Theorem layer_selection iterable mode buffering encoding errors newline :
  check_arguments mode buffering encoding errors newline = Ok tt ->
  text mode = negb (binary mode)
  /\ (buffering = 0%Z ->
      binary mode = true
      /\ open_iterable' iterable mode buffering encoding errors newline
         = Ok (RawFile (__init__ iterable)))
  /\ (buffering <> 0%Z -> binary mode = true ->
      BufferedReader_init (block_size DEFAULT_BUFFER_SIZE buffering) = None ->
      open_iterable' iterable mode buffering encoding errors newline
      = Ok (BufferedReader (__init__ iterable)
              (block_size DEFAULT_BUFFER_SIZE buffering)))
  /\ (text mode = true ->
      buffering <> 0%Z
      /\ (BufferedReader_init (block_size DEFAULT_BUFFER_SIZE buffering) = None ->
          TextIOWrapper_init encoding errors newline = None ->
          open_iterable' iterable mode buffering encoding errors newline
          = Ok (TextIOWrapper
                  (BufferedReader (__init__ iterable)
                     (block_size DEFAULT_BUFFER_SIZE buffering))
                  encoding errors newline mode)))
  /\ (forall e, buffering <> 0%Z ->
      BufferedReader_init (block_size DEFAULT_BUFFER_SIZE buffering) = Some e ->
      open_iterable' iterable mode buffering encoding errors newline = Raise e)
  /\ (forall e, text mode = true ->
      BufferedReader_init (block_size DEFAULT_BUFFER_SIZE buffering) = None ->
      TextIOWrapper_init encoding errors newline = Some e ->
      open_iterable' iterable mode buffering encoding errors newline = Raise e).
Proof.
  intros Hok. destruct (check_arguments_passed _ _ _ _ _ Hok) as (_ & Htb & Hnz).
  unfold open_iterable. rewrite Hok. unfold compose.
  split; [exact Htb|]. split; [|split; [|split; [|split]]].
  - intros ->. split; [|reflexivity].
    destruct (binary mode); [reflexivity|]. now destruct Hnz.
  - intros Hb0 Hb HB. destruct (Z.eqb_spec buffering 0); [contradiction|].
    now rewrite HB, Hb.
  - intros Ht. split; [auto|]. intros HB HT.
    destruct (Z.eqb_spec buffering 0); [now destruct (Hnz Ht)|].
    rewrite Ht in Htb. destruct (binary mode); [discriminate|].
    now rewrite HB, HT.
  - intros e Hb0 HB. destruct (Z.eqb_spec buffering 0); [contradiction|].
    now rewrite HB.
  - intros e Ht HB HT.
    destruct (Z.eqb_spec buffering 0); [now destruct (Hnz Ht)|].
    rewrite Ht in Htb. destruct (binary mode); [discriminate|].
    now rewrite HB, HT.
Qed.

End open_iterable_properties.

Lemma mode_validation_table_witness :
  (fun n => if (n <=? 0)%Z then Some (ValueError "invalid buffer size") else None)
    8192%Z = None
  /\ (fun _ _ _ : option string => @None exn) None None None = None
  /\ open_iterable 8192
       (fun n => if (n <=? 0)%Z then Some (ValueError "invalid buffer size") else None)
       (fun _ _ _ => None) [Yield [x61]] "rb" (-1) None None None
     = Ok (BufferedReader (__init__ [Yield [x61]]) 8192).
Proof.
  split; [reflexivity|]. split; [reflexivity|].
  apply (mode_validation_table 8192
           (fun n => if (n <=? 0)%Z then Some (ValueError "invalid buffer size") else None)
           (fun _ _ _ => None) [Yield [x61]]); reflexivity.
Defined.

Lemma layer_selection_witness :
  check_arguments "rb" 0 None None None = Ok tt
  /\ open_iterable 8192
       (fun n => if (n <=? 0)%Z then Some (ValueError "invalid buffer size") else None)
       (fun _ _ _ => None) [Yield [x61]] "rb" 0 None None None
     = Ok (RawFile (__init__ [Yield [x61]]))
  /\ open_iterable 8192
       (fun n => if (n <=? 0)%Z then Some (ValueError "invalid buffer size") else None)
       (fun _ _ _ => None) [Yield [x61]] "r" 16 (Some "utf-8") None None
     = Ok (TextIOWrapper (BufferedReader (__init__ [Yield [x61]]) 16)
             (Some "utf-8") None None "r").
Proof.
  split; [reflexivity|]. split.
  - apply (layer_selection 8192
             (fun n => if (n <=? 0)%Z then Some (ValueError "invalid buffer size") else None)
             (fun _ _ _ => None) [Yield [x61]] "rb" 0 None None None);
      reflexivity.
  - apply (layer_selection 8192
             (fun n => if (n <=? 0)%Z then Some (ValueError "invalid buffer size") else None)
             (fun _ _ _ => None) [Yield [x61]] "r" 16 (Some "utf-8") None None);
      reflexivity.
Defined.

(** C6, as the claim has it, fails: passing the checks does not make
    [open_iterable] return an object. The checks let any encoding name
    through in text mode, and the text layer may refuse it, as
    [io.TextIOWrapper] refuses an unknown one with a [LookupError]; then
    [open_iterable] raises. *)
Lemma validated_configuration_raises :
  ~ (forall DEFAULT_BUFFER_SIZE BufferedReader_init TextIOWrapper_init
            iterable mode buffering encoding errors newline,
       check_arguments mode buffering encoding errors newline = Ok tt ->
       exists f,
         open_iterable DEFAULT_BUFFER_SIZE BufferedReader_init TextIOWrapper_init
           iterable mode buffering encoding errors newline = Ok f).
Proof.
  intros H.
  destruct (H 8192%Z (fun _ => None)
              (fun encoding _ _ =>
                 match encoding with
                 | Some name =>
                     if String.eqb name "nope"
                     then Some (Exception "LookupError: unknown encoding: nope")
                     else None
                 | None => None
                 end)
              [] "r"%string (-1)%Z (Some "nope"%string) None None eq_refl)
    as [f Hf].
  discriminate Hf.
Qed.

(** ** After close *)

Lemma perform_closed self o :
  closed self = true ->
  refused (fst (perform self o)) /\ closed (snd (perform self o)) = true.
Proof.
  intros Hc. destruct o as [b| |]; simpl.
  - rewrite (readinto_closed self b Hc). simpl. auto.
  - rewrite (tell_closed self Hc). auto.
  - auto.
Qed.

Lemma perform_each_closed os : forall self,
  closed self = true ->
  Forall refused (fst (perform_each self os))
  /\ closed (snd (perform_each self os)) = true.
Proof.
  induction os as [|o os IH]; intros self Hc; simpl.
  - split; [constructor | exact Hc].
  - destruct (perform_closed self o Hc) as [Hr Hc'].
    destruct (perform self o) as [a self1]. simpl in Hr, Hc'.
    destruct (IH self1 Hc') as [Hrs Hc''].
    destruct (perform_each self1 os) as [rest self2]. simpl in *.
    split; [constructor; assumption | exact Hc''].
Qed.

(** C7. Closed-stream error: after [close()], on a reader in any state,
    [readinto] and [tell] raise the closed-stream [ValueError], the
    caller's buffer and the reader are left as they are, and so it stays
    through any further run of operations: each [readinto] and each
    [tell] of the run is refused. *)
Theorem closed_stream_error (self : t) (b : bytes) (os : list op) :
  readinto (close self) b = (Raise closed_error, b, close self)
  /\ tell (close self) = Raise closed_error
  /\ Forall refused (fst (perform_each (close self) os))
  /\ closed (snd (perform_each (close self) os)) = true.
Proof.
  split; [now apply readinto_closed|].
  split; [now apply tell_closed|].
  now apply perform_each_closed.
Qed.

(** ** The caller's buffer *)

(** C10. Frame of [readinto(b)]: a call that returns [k] has
    [k <= len(b)]; [b] keeps its length; its first [k] positions hold the
    next [k] undelivered bytes of the stream; every position from [k] on
    is as it was. *)
Theorem readinto_frame self b k b' self' :
  readinto self b = (Ok k, b', self') ->
  k <= length b
  /\ length b' = length b
  /\ firstn k b' = firstn k (undelivered self)
  /\ length (firstn k b') = k
  /\ skipn k b' = skipn k b
  /\ forall i d, k <= i -> nth i b' d = nth i b d.
Proof.
  intros Hr. pose proof (delivered_length _ _ _ _ _ Hr) as Hlen.
  unfold delivered in Hlen. simpl in Hlen.
  apply readinto_returns in Hr. destruct Hr as (_ & _ & Hk & Hb' & _).
  assert (Hf : length (firstn k (undelivered self)) = k).
  { rewrite length_firstn. lia. }
  split; [lia|]. split.
  { rewrite Hb', length_app, Hf, length_skipn. lia. }
  split.
  { rewrite Hb', firstn_app, Hf, Nat.sub_diag, firstn_firstn, Nat.min_id.
    apply app_nil_r. }
  split; [exact Hlen|].
  assert (Hs : skipn k b' = skipn k b).
  { rewrite Hb', skipn_app, Hf, Nat.sub_diag.
    rewrite skipn_all2 by lia. reflexivity. }
  split; [exact Hs|].
  intros i d Hi. replace i with (k + (i - k)) by lia.
  rewrite <- !nth_skipn. now rewrite Hs.
Qed.

Lemma readinto_frame_witness :
  readinto (__init__ [Yield [x61; x62]; Yield [x63]]) [x01; x02; x03; x04; x05]
  = (Ok 3, [x61; x62; x63; x04; x05], mk None (Some []) 3 false)
  /\ skipn 3 [x61; x62; x63; x04; x05] = skipn 3 [x01; x02; x03; x04; x05].
Proof.
  split; [reflexivity|].
  apply (readinto_frame (__init__ [Yield [x61; x62]; Yield [x63]])
           [x01; x02; x03; x04; x05] 3 [x61; x62; x63; x04; x05]
           (mk None (Some []) 3 false)).
  reflexivity.
Defined.

(** ** Producer errors *)

(** Chunks that do not reach the requested length are pulled one after
    the other. *)
Lemma readinto_loop_pulls num chunks tail : forall buffer total,
  length (buffer ++ concat chunks) < num ->
  readinto_loop num (map Yield chunks ++ tail) buffer total
  = readinto_loop num tail (buffer ++ concat chunks)
      (total + length (concat chunks)).
Proof.
  induction chunks as [|c cs IH]; intros buffer total Hlt; simpl.
  - now rewrite app_nil_r, Nat.add_0_r.
  - simpl in Hlt. rewrite !length_app in Hlt.
    destruct (Nat.ltb_spec (length buffer) num); [|lia].
    rewrite IH by (rewrite !length_app; lia).
    now rewrite <- app_assoc, length_app, Nat.add_assoc.
Qed.

(** A pull moves the handle: having called [next], the loop never leaves
    the producer it was given in place. *)
Lemma readinto_loop_handle num it : forall buffer total it',
  exit_iter (readinto_loop num it buffer total) = Some it' ->
  length it' <= length it
  /\ (length buffer < num -> length it' < length it).
Proof.
  induction it as [|ev it0 IH]; intros buffer total it'; simpl.
  - destruct (Nat.ltb_spec (length buffer) num); simpl; [discriminate|].
    intros [= <-]. split; [auto | lia].
  - destruct (Nat.ltb_spec (length buffer) num).
    + destruct ev as [chunk|e].
      * intros H'. apply IH in H'. simpl. split; [lia | intros _; lia].
      * destruct e; simpl; try discriminate;
          intros [= <-]; (split; [lia | intros _; lia]).
    + simpl. intros [= <-]. split; [auto | lia].
Qed.

(** The handle after a call on an open reader is the one the pull phase
    left. *)
Lemma readinto_handle self b buffer :
  closed self = false -> _buffer self = Some buffer ->
  _iter (snd (readinto self b))
  = exit_iter (pull (length b) (_iter self) buffer (_total self)).
Proof.
  intros Hc Hb. unfold readinto, _checkClosed. rewrite Hc, Hb.
  destruct (pull (length b) (_iter self) buffer (_total self))
    as [h buf tot raised]. simpl.
  destruct raised; [reflexivity|].
  destruct (length buf <=? length b); reflexivity.
Qed.

(** C8, as the code has it. The producer raises [e], not
    [StopIteration], at a pull of [readinto(b)], after chunks that left
    the call short of [len(b)]. The call raises that same [e]; nothing is
    written to [b]; the chunks pulled before stay pending, counted in
    [_total]; the reader stays open and keeps the producer, advanced just
    past the failed pull and no further. A later call that asks for more
    than is pending pulls from the producer again: it does not leave the
    handle where the failed call left it. *)
Theorem producer_error_propagates self buffer chunks e rest b :
  closed self = false ->
  _buffer self = Some buffer ->
  _iter self = Some (map Yield chunks ++ Throw e :: rest) ->
  e <> StopIteration ->
  length (buffer ++ concat chunks) < length b ->
  let self1 := {| _iter := Some rest;
                  _buffer := Some (buffer ++ concat chunks);
                  _total := _total self + length (concat chunks);
                  closed := false |} in
  readinto self b = (Raise e, b, self1)
  /\ forall b2, length (buffer ++ concat chunks) < length b2 ->
       _iter (snd (readinto self1 b2)) <> Some rest.
Proof.
  intros Hc Hb Hi He Hlt self1. split.
  - unfold readinto, _checkClosed.
    rewrite Hc, Hb, Hi. unfold pull.
    rewrite readinto_loop_pulls by exact Hlt.
    simpl. destruct (Nat.ltb_spec (length (buffer ++ concat chunks)) (length b)); [|lia].
    destruct e; [contradiction | reflexivity ..].
  - intros b2 Hlt2.
    rewrite (readinto_handle self1 b2 (buffer ++ concat chunks) eq_refl eq_refl).
    simpl. intros Hsame.
    apply readinto_loop_handle in Hsame. destruct Hsame as [_ Hmoved].
    specialize (Hmoved Hlt2). lia.
Qed.

Lemma producer_error_propagates_witness :
  readinto (__init__ [Yield [x61]; Throw (Exception "boom"); Yield [x62]])
    [x00; x00]
  = (Raise (Exception "boom"), [x00; x00],
     mk (Some [Yield [x62]]) (Some [x61]) 1 false).
Proof.
  apply (producer_error_propagates
           (__init__ [Yield [x61]; Throw (Exception "boom"); Yield [x62]])
           [] [[x61]] (Exception "boom") [Yield [x62]] [x00; x00]).
  - reflexivity.
  - reflexivity.
  - reflexivity.
  - discriminate.
  - simpl; lia.
Defined.

(** C8, as the claim has it, fails: after a call that raised the
    producer's error, a later call pulls from the producer again. Here
    the second call returns the byte the producer yields after its
    error, and the handle has moved past it. *)
Lemma producer_pulled_again_after_error :
  ~ (forall iterable b e b1 self1 b2,
       readinto (__init__ iterable) b = (Raise e, b1, self1) ->
       _iter (snd (readinto self1 b2)) = _iter self1).
Proof.
  intros H.
  specialize (H [Throw (Exception "boom"); Yield [x61]] [x00]
                (Exception "boom") [x00]
                (mk (Some [Yield [x61]]) (Some []) 0 false) [x00] eq_refl).
  discriminate H.
Qed.

(** ** Lifetime of the handle and of the buffer *)

(** The loop gives the producer up only on its [StopIteration], having
    pulled the chunks before it. *)
Lemma readinto_loop_releases num it : forall buffer total,
  exit_iter (readinto_loop num it buffer total) = None ->
  exists chunks tail,
    it = map Yield chunks ++ tail
    /\ fst (next tail) = Raise StopIteration
    /\ exit_total (readinto_loop num it buffer total)
       = total + length (concat chunks).
Proof.
  induction it as [|ev it0 IH]; intros buffer total; simpl.
  - intros _. exists [], []. simpl. repeat split; auto.
    destruct (length buffer <? num); simpl; lia.
  - destruct (Nat.ltb_spec (length buffer) num); [|discriminate].
    destruct ev as [chunk|e].
    + intros Hn. destruct (IH _ _ Hn) as (chunks & tail & -> & Hstop & Htot).
      exists (chunk :: chunks), tail. simpl.
      repeat split; auto. rewrite Htot, length_app. lia.
    + destruct e; simpl; try discriminate.
      intros _. exists [], (Throw StopIteration :: it0). simpl.
      repeat split; auto.
Qed.

(** C9, as the code has it. On a reader that was not closed, after any
    run of [readinto] calls, the pending buffer is still held. The
    producer handle is given up earlier than close in one case, and in
    that case always: a call that pulls up to a [next] that raises
    [StopIteration] sets [_iter] to [None] (and returns all it has); and
    a call that starts with the handle and ends without it has pulled
    chunks up to a [next] that raised [StopIteration]. [close()] releases
    both. *)
Theorem buffer_held_until_close :
  (forall iterable bs,
     let self := reader_after (__init__ iterable)
                   (readinto_each (__init__ iterable) bs) in
     closed self = false /\ _buffer self <> None)
  /\ (forall self b buffer chunks tail,
        closed self = false ->
        _buffer self = Some buffer ->
        _iter self = Some (map Yield chunks ++ tail) ->
        fst (next tail) = Raise StopIteration ->
        length (buffer ++ concat chunks) < length b ->
        readinto self b
        = (Ok (length (buffer ++ concat chunks)),
           set_prefix b (length (buffer ++ concat chunks))
             (buffer ++ concat chunks),
           {| _iter := None; _buffer := Some [];
              _total := _total self + length (concat chunks);
              closed := false |}))
  /\ (forall self b r b' self' it,
        _iter self = Some it ->
        readinto self b = (r, b', self') ->
        _iter self' = None ->
        exists chunks tail,
          it = map Yield chunks ++ tail
          /\ fst (next tail) = Raise StopIteration
          /\ _total self' = _total self + length (concat chunks))
  /\ (forall self,
        _iter (close self) = None /\ _buffer (close self) = None
        /\ closed (close self) = true).
Proof.
  split; [|split; [|split]].
  - intros iterable bs.
    destruct (readinto_each_position bs (__init__ iterable)
                (length (readinto_each (__init__ iterable) bs)) 0%Z
                (init_is_open iterable) eq_refl) as [Ho _].
    cbn zeta in Ho. rewrite firstn_all in Ho. exact Ho.
  - intros self b buffer chunks tail Hc Hb Hi Hstop Hlt.
    unfold readinto, _checkClosed. rewrite Hc, Hb, Hi. unfold pull.
    rewrite readinto_loop_pulls by exact Hlt.
    rewrite readinto_loop_next.
    destruct (Nat.ltb_spec (length (buffer ++ concat chunks)) (length b)); [|lia].
    destruct (next tail) as [[new|e] it']; simpl in Hstop; [discriminate|].
    injection Hstop as ->. simpl.
    destruct (Nat.leb_spec (length (buffer ++ concat chunks)) (length b)); [|lia].
    reflexivity.
  - intros self b r b' self' it Hi. unfold readinto, _checkClosed.
    destruct (closed self); [intros [= <- <- <-]; congruence|].
    destruct (_buffer self) as [buffer0|]; [|intros [= <- <- <-]; congruence].
    rewrite Hi. unfold pull.
    pose proof (readinto_loop_releases (length b) it buffer0 (_total self)) as Hrel.
    destruct (readinto_loop (length b) it buffer0 (_total self))
      as [h buf tot raised]. simpl in *.
    destruct raised as [e|]; [|destruct (length buf <=? length b)];
      intros [= <- <- <-]; simpl; exact Hrel.
  - intros self. repeat split.
Qed.

Lemma buffer_held_until_close_witness :
  readinto (__init__ [Yield [x61]; Yield []]) [x00; x00]
  = (Ok 1, [x61; x00], mk None (Some []) 1 false)
  /\ exists chunks tail,
       [Yield [x61]; Yield []] = map Yield chunks ++ tail
       /\ fst (next tail) = Raise StopIteration
       /\ _total (mk None (Some []) 1 false)
          = _total (__init__ [Yield [x61]; Yield []]) + length (concat chunks).
Proof.
  destruct buffer_held_until_close as (_ & Hrelease & Honly & _).
  split.
  - apply (Hrelease (__init__ [Yield [x61]; Yield []]) [x00; x00] []
             [[x61]; []] []).
    + reflexivity.
    + reflexivity.
    + reflexivity.
    + reflexivity.
    + simpl; lia.
  - apply (Honly (__init__ [Yield [x61]; Yield []]) [x00; x00] (Ok 1) [x61; x00]
             (mk None (Some []) 1 false) [Yield [x61]; Yield []]);
      reflexivity.
Defined.

(** C9, as the claim has it, fails: one [readinto] on a reader over an
    empty producer, never closed, leaves it without its handle. *)
Lemma handle_released_before_close :
  ~ (forall iterable bs,
       let self := reader_after (__init__ iterable)
                     (readinto_each (__init__ iterable) bs) in
       closed self = false ->
       _iter self <> None /\ _buffer self <> None).
Proof.
  intros H. specialize (H [] [[x00]] eq_refl).
  destruct H as [H _]. now apply H.
Qed.


(** * Further properties of the reader *)

(** ** The pull loop, in full

    What the loop consumed and why it stopped: it pulled the chunks
    [chunks] off the front of the producer, each one while still short of
    [num], and then either had enough, or met an exception of the
    producer, or met its [StopIteration]. *)
Lemma readinto_loop_trace num it : forall buffer total,
  let x := readinto_loop num it buffer total in
  exists chunks,
    exit_buffer x = buffer ++ concat chunks
    /\ exit_total x = total + length (concat chunks)
    /\ (forall front final, chunks = front ++ [final] ->
          length (buffer ++ concat front) < num)
    /\ match exit_raised x, exit_iter x with
       | Some e, Some it' =>
           it = map Yield chunks ++ Throw e :: it'
           /\ e <> StopIteration /\ length (exit_buffer x) < num
       | None, Some it' =>
           it = map Yield chunks ++ it' /\ num <= length (exit_buffer x)
       | None, None =>
           length (exit_buffer x) < num
           /\ exists tail, it = map Yield chunks ++ tail
                /\ fst (next tail) = Raise StopIteration
       | Some _, None => False
       end.
Proof.
  induction it as [|ev it0 IH]; intros buffer total; cbn zeta.
  - exists []. simpl. rewrite app_nil_r, Nat.add_0_r.
    assert (Hmin : forall (front : list bytes) (final : bytes), [] = front ++ [final] ->
              length (buffer ++ concat front) < num)
      by (intros [|? ?] ? [=]).
    destruct (Nat.ltb_spec (length buffer) num); simpl;
      repeat split; auto. exists []. auto.
  - simpl. destruct (Nat.ltb_spec (length buffer) num) as [Hlt|Hge].
    + destruct ev as [chunk|e].
      * destruct (IH (buffer ++ chunk) (total + length chunk))
          as (chunks & Hb & Ht & Hmin & Hend).
        exists (chunk :: chunks). simpl.
        split; [now rewrite Hb, app_assoc|].
        split; [rewrite Ht, length_app; lia|].
        split.
        { intros [|c front] final; simpl; intros [= <- Hrest].
          - now rewrite app_nil_r.
          - rewrite app_assoc. now apply (Hmin front final). }
        destruct (exit_raised _) as [e|], (exit_iter _) as [it'|]; auto.
        -- destruct Hend as (-> & ? & ?). auto.
        -- destruct Hend as (-> & ?). auto.
        -- destruct Hend as (? & tail & -> & ?). split; [auto|]. exists tail. auto.
      * exists []. simpl. rewrite app_nil_r, Nat.add_0_r.
        assert (Hmin : forall (front : list bytes) (final : bytes), [] = front ++ [final] ->
                  length (buffer ++ concat front) < num)
          by (intros [|? ?] ? [=]).
        destruct e; simpl; repeat split; auto; try discriminate.
        exists (Throw StopIteration :: it0). auto.
    + exists []. simpl. rewrite app_nil_r, Nat.add_0_r.
      repeat split; auto. intros [|? ?] ? [=].
Qed.

(** One call on an open reader: it stays open, its handle, if it keeps
    one, is a tail of the one it had, and what it raises, if it raises,
    is an exception the producer had in store. *)
Lemma readinto_open_step self b r b' self' :
  is_open self ->
  readinto self b = (r, b', self') ->
  is_open self'
  /\ (forall it', _iter self' = Some it' ->
        exists it front, _iter self = Some it /\ it = front ++ it')
  /\ (forall e, r = Raise e ->
        e <> StopIteration
        /\ exists it, _iter self = Some it /\ In (Throw e) it).
Proof.
  intros Ho Hr. split; [exact (proj1 (readinto_position _ _ _ _ _ Ho Hr))|].
  destruct Ho as [Hc Hb]. revert Hr. unfold readinto, _checkClosed. rewrite Hc.
  destruct (_buffer self) as [buffer0|]; [|contradiction].
  destruct (_iter self) as [it|]; simpl.
  - pose proof (readinto_loop_trace (length b) it buffer0 (_total self)) as Htr.
    cbn zeta in Htr. destruct Htr as (chunks & _ & _ & _ & Hend).
    destruct (readinto_loop (length b) it buffer0 (_total self))
      as [h buf tot raised]. simpl in *.
    destruct raised as [e|].
    + destruct h as [it'|]; [|contradiction]. destruct Hend as (Hit & Hne & _).
      intros [= <- <- <-]. simpl. split.
      * intros it'' [= <-]. exists it, (map Yield chunks ++ [Throw e]).
        split; [reflexivity|]. now rewrite <- app_assoc.
      * intros e' [= <-]. split; [exact Hne|]. exists it. split; [reflexivity|].
        rewrite Hit. apply in_or_app. right. now left.
    + assert (Htail : forall it', h = Some it' ->
                exists it0 front, Some it = Some it0 /\ it0 = front ++ it').
      { intros it' ->. destruct Hend as [-> _]. eauto. }
      destruct (length buf <=? length b); intros [= <- <- <-]; simpl;
        (split; [exact Htail | discriminate]).
  - destruct (length buffer0 <=? length b); intros [= <- <- <-]; simpl;
      (split; discriminate).
Qed.

(** ** A read of no bytes *)

(** [readinto] on an empty buffer, [read(0)]: on an open reader it
    returns 0 at once. Nothing is pulled, the pending bytes stay pending
    and the reader is left exactly as it was, producer errors or not. *)
Theorem zero_length_read self buffer :
  closed self = false ->
  _buffer self = Some buffer ->
  readinto self [] = (Ok 0, [], self)
  /\ read self 0 = (Ok [], self).
Proof.
  intros Hc Hb.
  assert (H : readinto self [] = (Ok 0, [], self)).
  { destruct self as [h buf tot c]. simpl in *. subst c buf.
    unfold readinto, _checkClosed. simpl.
    assert (Hx : pull 0 h buffer tot = mk_exit h buffer tot None).
    { destruct h as [it|]; [|reflexivity]. simpl. now destruct it. }
    rewrite Hx. simpl. destruct buffer; reflexivity. }
  split; [exact H|]. unfold read. simpl repeat. now rewrite H.
Qed.

Lemma zero_length_read_witness :
  readinto (mk (Some [Throw (Exception "boom")]) (Some [x61]) 1 false) []
  = (Ok 0, [], mk (Some [Throw (Exception "boom")]) (Some [x61]) 1 false).
Proof.
  apply (zero_length_read
           (mk (Some [Throw (Exception "boom")]) (Some [x61]) 1 false) [x61]);
    reflexivity.
Defined.

(** ** No read-ahead *)

(** [readinto(b)] takes from the producer no more than it needs: the
    chunks it pulls are a front part of the producer, counted in
    [_total], and each of them was pulled while the bytes at hand were
    still fewer than [len(b)]. With [len(b)] bytes already pending it
    leaves the producer alone. The handle it leaves is what follows those
    chunks, past the [next] that raised if one did. *)
Theorem no_read_ahead self b buffer it r b' self' :
  closed self = false ->
  _buffer self = Some buffer ->
  _iter self = Some it ->
  readinto self b = (r, b', self') ->
  exists chunks rest,
    it = map Yield chunks ++ rest
    /\ _total self' = _total self + length (concat chunks)
    /\ (forall front final, chunks = front ++ [final] ->
          length (buffer ++ concat front) < length b)
    /\ (length b <= length buffer -> chunks = [] /\ _iter self' = Some it)
    /\ match _iter self' with
       | Some it' => rest = it' \/ exists e, r = Raise e /\ rest = Throw e :: it'
       | None => fst (next rest) = Raise StopIteration
       end.
Proof.
  intros Hc Hb Hi. unfold readinto, _checkClosed. rewrite Hc, Hb, Hi. simpl.
  pose proof (readinto_loop_trace (length b) it buffer (_total self)) as Htr.
  cbn zeta in Htr. destruct Htr as (chunks & _ & Ht & Hmin & Hend).
  assert (Hkeep : length b <= length buffer ->
            chunks = []
            /\ exit_iter (readinto_loop (length b) it buffer (_total self))
               = Some it).
  { intros Hle. split.
    - destruct chunks as [|c cs _] using rev_ind; [reflexivity|].
      specialize (Hmin cs c eq_refl). rewrite length_app in Hmin. lia.
    - now rewrite readinto_loop_enough. }
  destruct (readinto_loop (length b) it buffer (_total self))
    as [h buf tot raised]. simpl in *.
  destruct raised as [e|].
  - destruct h as [it'|]; [|contradiction]. destruct Hend as (Hit & _ & Hlt).
    intros [= <- <- <-]. simpl. exists chunks, (Throw e :: it').
    split; [exact Hit|]. split; [exact Ht|]. split; [exact Hmin|].
    split; [exact Hkeep|]. right. eauto.
  - assert (Hgoal : exists chunks0 rest,
              it = map Yield chunks0 ++ rest
              /\ tot = _total self + length (concat chunks0)
              /\ (forall front final, chunks0 = front ++ [final] ->
                    length (buffer ++ concat front) < length b)
              /\ (length b <= length buffer -> chunks0 = [] /\ h = Some it)
              /\ match h with
                 | Some it' => rest = it' \/ exists e, r = Raise e /\ rest = Throw e :: it'
                 | None => fst (next rest) = Raise StopIteration
                 end).
    { destruct h as [it'|].
      - destruct Hend as [Hit _]. exists chunks, it'.
        split; [exact Hit|]. split; [exact Ht|]. split; [exact Hmin|].
        split; [exact Hkeep|]. now left.
      - destruct Hend as (Hlt & tail & Hit & Hstop). exists chunks, tail.
        split; [exact Hit|]. split; [exact Ht|]. split; [exact Hmin|].
        split; [exact Hkeep|]. exact Hstop. }
    destruct (length buf <=? length b); intros [= <- <- <-]; simpl; exact Hgoal.
Qed.

Lemma no_read_ahead_witness :
  exists chunks rest,
    [Yield [x61; x62]; Yield [x63]; Yield [x64]] = map Yield chunks ++ rest
    /\ _total (mk (Some [Yield [x64]]) (Some []) 3 false)
       = _total (__init__ [Yield [x61; x62]; Yield [x63]; Yield [x64]])
         + length (concat chunks)
    /\ (forall front final, chunks = front ++ [final] ->
          length ([] ++ concat front) < length [x00; x00; x00])
    /\ (length [x00; x00; x00] <= length (@nil byte) ->
        chunks = []
        /\ _iter (mk (Some [Yield [x64]]) (Some []) 3 false)
           = Some [Yield [x61; x62]; Yield [x63]; Yield [x64]])
    /\ match _iter (mk (Some [Yield [x64]]) (Some []) 3 false) with
       | Some it' =>
           rest = it'
           \/ exists e, @Ok nat 3 = Raise e /\ rest = Throw e :: it'
       | None => fst (next rest) = Raise StopIteration
       end.
Proof.
  apply (no_read_ahead (__init__ [Yield [x61; x62]; Yield [x63]; Yield [x64]])
           [x00; x00; x00] [] [Yield [x61; x62]; Yield [x63]; Yield [x64]]
           (Ok 3) [x61; x62; x63] (mk (Some [Yield [x64]]) (Some []) 3 false));
    reflexivity.
Defined.

(** ** Nothing lost, whatever the producer does *)

Lemma readinto_each_conserves bs : forall self,
  is_open self ->
  concat (map delivered (readinto_each self bs))
    ++ undelivered (reader_after self (readinto_each self bs))
  = undelivered self.
Proof.
  induction bs as [|b bs IH]; intros self Ho; simpl; [reflexivity|].
  destruct (readinto self b) as [[r b'] self'] eqn:Hr.
  rewrite reader_after_cons. simpl self_after.
  destruct (readinto_position _ _ _ _ _ Ho Hr) as [Ho' _].
  simpl. rewrite <- app_assoc, (IH self' Ho').
  destruct r as [n|e].
  - destruct (delivered_returns _ _ _ _ _ Hr) as [-> ->]. apply firstn_skipn.
  - unfold delivered. simpl. apply readinto_raises in Hr.
    destruct Hr as (_ & _ & _ & Hopen). destruct Ho as [Hc Hb].
    destruct (_buffer self) as [buffer|] eqn:Hbuf; [|contradiction].
    now destruct (Hopen buffer Hc eq_refl) as (_ & -> & _).
Qed.

(** For any producer, with exceptions or an early [StopIteration] in it,
    and any run of [readinto] calls on a fresh reader: the bytes delivered
    so far, followed by the bytes the reader has yet to deliver, are the
    chunks the producer yields before it signals exhaustion, joined in
    order. A call that raises loses no byte, and nothing the producer
    holds past its [StopIteration] is ever delivered. *)
Theorem nothing_lost (iterable : iterator) (bs : list bytes) :
  let cs := readinto_each (__init__ iterable) bs in
  concat (map delivered cs) ++ undelivered (reader_after (__init__ iterable) cs)
  = to_come iterable.
Proof.
  cbn zeta. now rewrite readinto_each_conserves by apply init_is_open.
Qed.

(** ** Exhaustion is final *)

Lemma to_come_until_stop chunks tail :
  fst (next tail) = Raise StopIteration ->
  to_come (map Yield chunks ++ tail) = concat chunks.
Proof.
  intros Hstop. induction chunks as [|c cs IH]; simpl.
  - destruct tail as [|[chunk|e] tail']; simpl in *; try discriminate; auto.
    now injection Hstop as ->.
  - now rewrite IH.
Qed.

Lemma readinto_loop_until_stop num tail :
  fst (next tail) = Raise StopIteration ->
  forall chunks buffer total,
    let x := readinto_loop num (map Yield chunks ++ tail) buffer total in
    exit_raised x = None
    /\ (exit_iter x = None
        \/ exists chunks', exit_iter x = Some (map Yield chunks' ++ tail)).
Proof.
  intros Hstop. induction chunks as [|c cs IH]; intros buffer total; cbn zeta.
  - simpl. rewrite readinto_loop_next.
    destruct (length buffer <? num).
    + destruct (next tail) as [[new|e] it']; simpl in Hstop; [discriminate|].
      injection Hstop as ->. auto.
    + simpl. split; [reflexivity|]. right. now exists [].
  - simpl. destruct (length buffer <? num); [apply IH|].
    simpl. split; [reflexivity|]. right. now exists (c :: cs).
Qed.

Lemma readinto_until_stop self b tail :
  fst (next tail) = Raise StopIteration ->
  is_open self ->
  (_iter self = None \/ exists chunks, _iter self = Some (map Yield chunks ++ tail)) ->
  exists n b' self',
    readinto self b = (Ok n, b', self') /\ is_open self'
    /\ (_iter self' = None
        \/ exists chunks, _iter self' = Some (map Yield chunks ++ tail)).
Proof.
  intros Hstop [Hc Hb] Hshape. unfold readinto, _checkClosed. rewrite Hc.
  destruct (_buffer self) as [buffer0|]; [|contradiction].
  assert (Hx : let x := pull (length b) (_iter self) buffer0 (_total self) in
               exit_raised x = None
               /\ (exit_iter x = None
                   \/ exists chunks, exit_iter x = Some (map Yield chunks ++ tail))).
  { destruct Hshape as [->|[chunks ->]]; simpl; auto.
    now apply readinto_loop_until_stop. }
  cbn zeta in Hx.
  destruct (pull (length b) (_iter self) buffer0 (_total self))
    as [h buf tot raised]. simpl in *. destruct Hx as [-> Hshape'].
  destruct (length buf <=? length b); do 3 eexists;
    (split; [reflexivity|]); (split; [split|]); simpl; auto; discriminate.
Qed.

Lemma readinto_each_until_stop tail bs :
  fst (next tail) = Raise StopIteration ->
  forall self,
    is_open self ->
    (_iter self = None
     \/ exists chunks, _iter self = Some (map Yield chunks ++ tail)) ->
    Forall (fun c => exists n, returned c = Ok n) (readinto_each self bs)
    /\ map delivered (readinto_each self bs)
       = split_at (map length bs) (undelivered self).
Proof.
  intros Hstop. induction bs as [|b bs IH]; intros self Ho Hshape; simpl.
  - split; [constructor | reflexivity].
  - destruct (readinto_until_stop self b tail Hstop Ho Hshape)
      as (n & b' & self' & Hr & Ho' & Hshape').
    rewrite Hr. destruct (IH self' Ho' Hshape') as [Hall Hmap].
    destruct (delivered_returns _ _ _ _ _ Hr) as [Hd Hu].
    split.
    + constructor; [simpl; eauto | exact Hall].
    + simpl. rewrite Hmap, Hu. f_equal. exact Hd.
Qed.

(** The producer yields [chunks] and then raises [StopIteration], being
    out of entries or not: whatever it would do if asked again ([tail]
    past its first entry) has no effect. No call raises, and the calls
    deliver [chunks] joined, cut at the requested lengths, and then
    nothing: the reader never asks again. *)
Theorem exhaustion_is_final (chunks : list bytes) (tail : iterator)
    (bs : list bytes) :
  fst (next tail) = Raise StopIteration ->
  let cs := readinto_each (__init__ (map Yield chunks ++ tail)) bs in
  Forall (fun c => exists n, returned c = Ok n) cs
  /\ map delivered cs = split_at (map length bs) (concat chunks).
Proof.
  intros Hstop. cbn zeta.
  destruct (readinto_each_until_stop tail bs Hstop
              (__init__ (map Yield chunks ++ tail)) (init_is_open _))
    as [Hall Hmap].
  { right. now exists chunks. }
  rewrite init_undelivered, to_come_until_stop in Hmap by exact Hstop.
  split; assumption.
Qed.

Lemma exhaustion_is_final_witness :
  map delivered
    (readinto_each
       (__init__ (map Yield [[x61]; [x62]]
                  ++ [Throw StopIteration; Yield [x63]; Throw (Exception "late")]))
       [[x00]; [x00; x00; x00]; [x00]])
  = [[x61]; [x62]; []].
Proof.
  apply (exhaustion_is_final [[x61]; [x62]]
           [Throw StopIteration; Yield [x63]; Throw (Exception "late")]
           [[x00]; [x00; x00; x00]; [x00]]).
  reflexivity.
Defined.

(** ** The exceptions a reader can raise *)

Lemma perform_each_errors iterable os : forall self,
  (closed self = true
   \/ (is_open self
       /\ forall it, _iter self = Some it -> exists front, iterable = front ++ it)) ->
  Forall (fails_as_expected iterable) (fst (perform_each self os))
  /\ (closed self = false -> ~ In Close os ->
      Forall (fails_by_producer iterable) (fst (perform_each self os))).
Proof.
  induction os as [|o os IH]; intros self Hinv; simpl.
  - split; [constructor | intros; constructor].
  - destruct (perform self o) as [a self1] eqn:Hp.
    assert (Hstep : fails_as_expected iterable a
              /\ (closed self = false -> o <> Close ->
                  fails_by_producer iterable a /\ closed self1 = false)
              /\ (closed self1 = true
                  \/ (is_open self1
                      /\ forall it, _iter self1 = Some it ->
                           exists front, iterable = front ++ it))).
    { destruct Hinv as [Hc|[Ho Hsuf]].
      - destruct (perform_closed self o Hc) as [Hr Hc']. rewrite Hp in Hr, Hc'.
        simpl in Hr, Hc'. split; [|split; [congruence | now left]].
        destruct a as [[n|e] b'|[p|e]|]; simpl in *; auto; inversion Hr; auto.
      - destruct o as [b| |]; simpl in Hp.
        + destruct (readinto self b) as [[r b'] self'] eqn:Hr.
          injection Hp as <- <-.
          destruct (readinto_open_step _ _ _ _ _ Ho Hr) as (Ho' & Htail & Herr).
          assert (Hfail : fails_by_producer iterable (Read_returned r b')).
          { destruct r as [n|e]; simpl; [trivial|].
            destruct (Herr e eq_refl) as (Hne & it & Hi & Hin).
            destruct (Hsuf it Hi) as [front ->].
            split; [exact Hne|]. apply in_or_app. now right. }
          split; [destruct r; simpl in *; auto|].
          split; [intros _ _; split; [exact Hfail | apply Ho']|].
          right. split; [exact Ho'|]. intros it' Hi'.
          destruct (Htail it' Hi') as (it & front & Hi & Heq).
          destruct (Hsuf it Hi) as [front0 ->].
          exists (front0 ++ front). now rewrite Heq, app_assoc.
        + injection Hp as <- <-.
          destruct (tell_open self Ho) as (buffer & _ & ->). simpl.
          split; [trivial|]. split; [intros _ _; split; [trivial | apply Ho]|].
          right. auto.
        + injection Hp as <- <-. simpl.
          split; [trivial|]. split; [intros _ Hne; now destruct Hne|].
          now left. }
    destruct Hstep as (Ha & Hopen & Hinv1).
    destruct (IH self1 Hinv1) as [Hall Hall'].
    destruct (perform_each self1 os) as [rest self2]. simpl in *.
    split; [constructor; assumption|].
    intros Hc Hno.
    destruct (Hopen Hc) as [Ha' Hc1]; [intros ->; apply Hno; now left|].
    constructor; [exact Ha'|]. apply Hall'; [exact Hc1|].
    intros Hin. apply Hno. now right.
Qed.

(** Over any run of [readinto], [tell] and [close] on a fresh reader,
    [tell] fails only with the closed-stream error and [readinto] only
    with it or with an exception of the producer, never [StopIteration]
    and never an error of the reader's own making; without a [close] in
    the run, [tell] does not fail at all and [readinto] fails only with
    an exception of the producer. *)
Theorem only_expected_errors (iterable : iterator) (os : list op) :
  Forall (fails_as_expected iterable) (fst (perform_each (__init__ iterable) os))
  /\ (~ In Close os ->
      Forall (fails_by_producer iterable)
        (fst (perform_each (__init__ iterable) os))).
Proof.
  destruct (perform_each_errors iterable os (__init__ iterable)) as [Hall Hopen].
  - right. split; [apply init_is_open|]. intros it [= <-]. now exists [].
  - split; [exact Hall|]. intros Hno. now apply Hopen.
Qed.

Lemma only_expected_errors_witness :
  Forall (fails_by_producer [Yield [x61]; Throw (Exception "boom")])
    (fst (perform_each (__init__ [Yield [x61]; Throw (Exception "boom")])
            [Readinto [x00; x00]; Tell; Readinto [x00; x00]])).
Proof.
  apply (only_expected_errors [Yield [x61]; Throw (Exception "boom")]
           [Readinto [x00; x00]; Tell; Readinto [x00; x00]]).
  simpl. intros [H|[H|[H|[]]]]; discriminate H.
Defined.

(** ** One read or two *)

Lemma pull_quiet num handle buffer total :
  quiet handle ->
  exit_raised (pull num handle buffer total) = None
  /\ quiet (exit_iter (pull num handle buffer total)).
Proof.
  intros Hq. destruct handle as [it|]; simpl; auto.
  now apply readinto_loop_chunks_only.
Qed.

(** A call on an open reader whose pull phase raised nothing, in one
    formula for both branches of the delivery. *)
Lemma readinto_open self b buffer :
  closed self = false -> _buffer self = Some buffer ->
  let x := pull (length b) (_iter self) buffer (_total self) in
  exit_raised x = None ->
  readinto self b
  = (Ok (Nat.min (length b) (length (exit_buffer x))),
     firstn (length b) (exit_buffer x)
       ++ skipn (Nat.min (length b) (length (exit_buffer x))) b,
     mk (exit_iter x) (Some (skipn (length b) (exit_buffer x)))
        (exit_total x) false).
Proof.
  intros Hc Hb x Hr. unfold readinto, _checkClosed. rewrite Hc, Hb.
  fold x. rewrite Hr.
  destruct (Nat.leb_spec (length (exit_buffer x)) (length b)) as [Hle|Hgt].
  - replace (Nat.min (length b) (length (exit_buffer x)))
      with (length (exit_buffer x)) by lia.
    rewrite (firstn_all2 (exit_buffer x) Hle), (skipn_all2 (exit_buffer x) Hle).
    reflexivity.
  - replace (Nat.min (length b) (length (exit_buffer x)))
      with (length b) by lia.
    reflexivity.
Qed.

(** Asking the loop for more, it goes on from where it stopped. *)
Lemma readinto_loop_resume m M it :
  m <= M -> chunks_only it ->
  forall buffer total,
    readinto_loop M it buffer total
    = let x := readinto_loop m it buffer total in
      match exit_iter x with
      | Some it1 => readinto_loop M it1 (exit_buffer x) (exit_total x)
      | None => x
      end.
Proof.
  intros Hle. induction it as [|ev it0 IH]; intros Hq buffer total; cbn zeta.
  - simpl. destruct (Nat.ltb_spec (length buffer) m) as [Hlt|Hge]; simpl.
    + destruct (Nat.ltb_spec (length buffer) M); [reflexivity | lia].
    + reflexivity.
  - inversion Hq as [|? ? Hev Hq0]; subst.
    destruct ev as [chunk|e]; [|contradiction]. simpl.
    destruct (Nat.ltb_spec (length buffer) m) as [Hlt|Hge].
    + destruct (Nat.ltb_spec (length buffer) M); [|lia]. now apply IH.
    + reflexivity.
Qed.

(** Bytes set aside in front of the buffer, and asked for on top, change
    nothing to what the loop pulls. *)
Lemma readinto_loop_shift p n it : forall buffer total,
  readinto_loop (length p + n) it (p ++ buffer) total
  = let x := readinto_loop n it buffer total in
    mk_exit (exit_iter x) (p ++ exit_buffer x) (exit_total x) (exit_raised x).
Proof.
  induction it as [|ev it0 IH]; intros buffer total; cbn zeta; simpl;
    rewrite length_app;
    destruct (Nat.ltb_spec (length buffer) n);
    destruct (Nat.ltb_spec (length p + length buffer) (length p + n));
    try lia; try reflexivity.
  destruct ev as [chunk|e].
  - rewrite <- app_assoc. apply IH.
  - now destruct e.
Qed.

Lemma pull_then_pull m n handle buffer total :
  quiet handle ->
  let x1 := pull m handle buffer total in
  let x2 := pull n (exit_iter x1) (skipn m (exit_buffer x1)) (exit_total x1) in
  pull (m + n) handle buffer total
  = mk_exit (exit_iter x2) (firstn m (exit_buffer x1) ++ exit_buffer x2)
      (exit_total x2) (exit_raised x2).
Proof.
  intros Hq. cbn zeta. destruct handle as [it|]; simpl.
  2:{ now rewrite firstn_skipn. }
  rewrite (readinto_loop_resume m (m + n) it) by (lia || exact Hq). cbn zeta.
  pose proof (readinto_loop_ends m it buffer total) as Hend.
  destruct (readinto_loop_chunks_only m it buffer total Hq) as [Hr _].
  cbn zeta in Hend. rewrite Hr in Hend.
  destruct (readinto_loop m it buffer total) as [h buf1 tot1 raised].
  simpl in *. subst raised.
  destruct h as [it1|]; simpl.
  - destruct Hend as [[Hge _]|[_ [=]]].
    rewrite <- (firstn_skipn m buf1) at 1.
    replace (m + n) with (length (firstn m buf1) + n)
      by (rewrite length_firstn; lia).
    apply readinto_loop_shift.
  - now rewrite firstn_skipn.
Qed.

(** Over a chunk-only producer, [readinto] into [b1] and then into [b2]
    is [readinto] into one buffer [b1 ++ b2]: the counts add up, the bytes
    written are the same at the same places, and the reader ends in the
    same state, with the same chunks pulled and the same bytes pending. *)
Theorem read_splitting self b1 b2 :
  is_open self -> quiet (_iter self) ->
  exists n1 n2 b1' b2' self1 self2,
    readinto self b1 = (Ok n1, b1', self1)
    /\ readinto self1 b2 = (Ok n2, b2', self2)
    /\ readinto self (b1 ++ b2) = (Ok (n1 + n2), b1' ++ b2', self2).
Proof.
  intros [Hc Hb] Hq.
  destruct (_buffer self) as [buffer|] eqn:Hbuf; [clear Hb | contradiction].
  set (m := length b1). set (n := length b2).
  pose proof (pull_then_pull m n (_iter self) buffer (_total self) Hq) as H12.
  pose proof (pull_ends m (_iter self) buffer (_total self)) as Hend1.
  destruct (pull_quiet m (_iter self) buffer (_total self) Hq) as [Hr1 Hq1].
  pose proof (readinto_open self b1 buffer Hc Hbuf) as Hcall1.
  pose proof (readinto_open self (b1 ++ b2) buffer Hc Hbuf) as Hcall12.
  cbn zeta in H12, Hend1, Hcall1, Hcall12.
  rewrite length_app in Hcall12. fold m n in Hcall1, Hcall12.
  rewrite Hr1 in Hend1. specialize (Hcall1 Hr1). rewrite H12 in Hcall12.
  destruct (pull m (_iter self) buffer (_total self)) as [h1 buf1 tot1 raised1].
  simpl in *. clear H12 Hr1.
  set (self1 := mk h1 (Some (skipn m buf1)) tot1 false) in *.
  pose proof (pull_ends n h1 (skipn m buf1) tot1) as Hend2.
  destruct (pull_quiet n h1 (skipn m buf1) tot1 Hq1) as [Hr2 _].
  pose proof (readinto_open self1 b2 (skipn m buf1) eq_refl eq_refl) as Hcall2.
  cbn zeta in Hend2, Hcall2. simpl in Hcall2. fold n in Hcall2.
  specialize (Hcall2 Hr2). specialize (Hcall12 Hr2).
  assert (Hemp : length buf1 < m -> pull n h1 (skipn m buf1) tot1
                                   = mk_exit None [] tot1 None).
  { intros Hlt. destruct Hend1 as [?|[_ ->]]; [lia|]. simpl.
    now rewrite skipn_all2 by lia. }
  destruct (pull n h1 (skipn m buf1) tot1) as [h2 buf2 tot2 raised2].
  simpl in *.
  do 6 eexists. split; [exact Hcall1|]. split; [exact Hcall2|].
  rewrite Hcall12. clear Hcall1 Hcall2 Hcall12.
  destruct (Nat.le_gt_cases m (length buf1)) as [Hge|Hlt].
  - assert (Hd : length (firstn m buf1) = m) by (rewrite length_firstn; lia).
    f_equal; [f_equal|].
    + f_equal. rewrite length_app, Hd. lia.
    + rewrite length_app, Hd.
      replace (Nat.min (m + n) (m + length buf2)) with (m + Nat.min n (length buf2)) by lia.
      replace (Nat.min m (length buf1)) with m by lia.
      rewrite firstn_app, Hd. replace (m + n - m) with n by lia.
      rewrite (firstn_all2 (n := m + n) (firstn m buf1)) by lia.
      rewrite skipn_app. fold m.
      replace (m + Nat.min n (length buf2) - m) with (Nat.min n (length buf2)) by lia.
      rewrite (skipn_all2 (n := m + Nat.min n (length buf2)) b1) by (fold m; lia).
      rewrite (skipn_all2 (n := m) b1) by (fold m; lia).
      simpl. now rewrite app_nil_r, <- app_assoc.
    + f_equal. f_equal. rewrite skipn_app, Hd.
      replace (m + n - m) with n by lia.
      now rewrite skipn_all2 by lia.
  - injection (Hemp Hlt) as -> -> -> ->.
    rewrite app_nil_r, firstn_nil, skipn_nil. simpl length.
    rewrite (firstn_all2 (n := m) buf1) by lia.
    rewrite (firstn_all2 (n := m + n) buf1) by lia.
    rewrite (skipn_all2 (n := m + n) buf1) by lia.
    replace (Nat.min (m + n) (length buf1)) with (length buf1) by lia.
    replace (Nat.min m (length buf1)) with (length buf1) by lia.
    rewrite Nat.min_0_r, Nat.add_0_r. simpl skipn.
    f_equal. f_equal. rewrite skipn_app.
    replace (length buf1 - length b1) with 0 by (fold m; lia).
    simpl. now rewrite <- app_assoc.
Qed.

Lemma read_splitting_witness :
  exists n1 n2 b1' b2' self1 self2,
    readinto (__init__ [Yield [x61]; Yield [x62; x63; x64]]) [x00; x00]
    = (Ok n1, b1', self1)
    /\ readinto self1 [x00] = (Ok n2, b2', self2)
    /\ readinto (__init__ [Yield [x61]; Yield [x62; x63; x64]]) ([x00; x00] ++ [x00])
       = (Ok (n1 + n2), b1' ++ b2', self2).
Proof.
  apply (read_splitting (__init__ [Yield [x61]; Yield [x62; x63; x64]])
           [x00; x00] [x00]).
  - split; [reflexivity | discriminate].
  - simpl. repeat constructor.
Defined.

(** ** Reading in blocks *)

Lemma read_until_empty_blocks size fuel : forall self out,
  0 < size -> is_open self -> quiet (_iter self) ->
  length (undelivered self) < fuel ->
  exists pieces self',
    read_until_empty fuel size self out = Some (Ok (out ++ pieces), self')
    /\ concat pieces = undelivered self
    /\ undelivered self' = []
    /\ (forall front final, pieces = front ++ [final] ->
          Forall (fun piece => length piece = size) front
          /\ 0 < length final <= size)
    /\ length pieces = (length (undelivered self) + size - 1) / size.
Proof.
  induction fuel as [|fuel IH]; intros self out Hsize Ho Hq Hfuel; [lia|].
  simpl. destruct (read_chunks_only self size Ho Hq) as (self' & Hr & Ho' & Hq' & Hu).
  rewrite Hr.
  destruct (firstn size (undelivered self)) as [|x piece] eqn:Hpiece.
  - assert (Hnil : undelivered self = []).
    { destruct (undelivered self); [reflexivity|].
      destruct size; [lia | discriminate]. }
    exists [], self'. rewrite app_nil_r, Hu, Hnil, skipn_nil. simpl.
    repeat split; try (now destruct front).
    symmetry. apply Nat.div_small. lia.
  - assert (Hp : length (x :: piece) = Nat.min size (length (undelivered self))).
    { now rewrite <- Hpiece, length_firstn. }
    assert (Hlen : length (undelivered self') < fuel).
    { rewrite Hu, length_skipn. simpl in Hp. lia. }
    destruct (IH self' (out ++ [x :: piece]) Hsize Ho' Hq' Hlen)
      as (pieces & self'' & Hrun & Hcat & Hend & Hfull & Hcount).
    exists ((x :: piece) :: pieces), self''.
    split; [rewrite <- app_assoc in Hrun; exact Hrun|].
    split.
    { change (concat ((x :: piece) :: pieces)) with ((x :: piece) ++ concat pieces).
      rewrite Hcat, Hu, <- Hpiece. apply firstn_skipn. }
    split; [exact Hend|].
    rewrite Hu, length_skipn in Hcount.
    split.
    + intros [|p front] final; simpl; intros [= Hhd Htl].
      * subst final. split; [constructor|]. simpl in Hp. simpl. lia.
      * subst p. destruct (Hfull front final Htl) as [Hfront Hfinal].
        split; [|exact Hfinal]. constructor; [|exact Hfront].
        assert (Hmore : 0 < length pieces) by (rewrite Htl, length_app; simpl; lia).
        rewrite Hcount in Hmore.
        destruct (Nat.le_gt_cases (length (undelivered self)) size) as [Hle|Hgt]; [|lia].
        replace (length (undelivered self) - size) with 0 in Hmore by lia.
        rewrite Nat.div_small in Hmore by lia. lia.
    + simpl length at 1. rewrite Hcount.
      destruct (Nat.le_gt_cases (length (undelivered self)) size) as [Hle|Hgt].
      * replace (length (undelivered self) - size) with 0 by lia.
        rewrite Nat.div_small by lia.
        apply (Nat.div_unique _ _ 1 (length (undelivered self) - 1)); simpl in Hp; lia.
      * replace (length (undelivered self) + size - 1)
          with ((length (undelivered self) - size + size - 1) + 1 * size) by lia.
        rewrite Nat.div_add by lia. lia.
Qed.

(** Reading a chunk-only producer with [read(size)] until the empty read
    cuts its bytes anew, whatever the chunks were: the loop returns, its
    pieces joined are the chunks joined, every piece but the last has
    exactly [size] bytes, the last has from 1 to [size], there are
    ceil(total / size) of them, and the reader is left with nothing to
    deliver. *)
Theorem read_in_blocks (chunks : list bytes) (size fuel : nat) :
  0 < size -> length (concat chunks) < fuel ->
  exists pieces self',
    read_until_empty fuel size (__init__ (map Yield chunks)) []
    = Some (Ok pieces, self')
    /\ concat pieces = concat chunks
    /\ undelivered self' = []
    /\ (forall front final, pieces = front ++ [final] ->
          Forall (fun piece => length piece = size) front
          /\ 0 < length final <= size)
    /\ length pieces = (length (concat chunks) + size - 1) / size.
Proof.
  intros Hsize Hfuel.
  destruct (read_until_empty_blocks size fuel (__init__ (map Yield chunks)) []
              Hsize (init_is_open _) (chunks_only_map chunks))
    as (pieces & self' & Hrun & Hcat & Hend & Hfull & Hcount).
  - now rewrite init_undelivered, to_come_chunks.
  - rewrite init_undelivered, to_come_chunks in Hcat, Hcount.
    exists pieces, self'. auto.
Qed.

Lemma read_in_blocks_witness :
  read_until_empty 6 2 (__init__ (map Yield [[x61]; []; [x62; x63; x64]; [x65]])) []
  = Some (Ok [[x61; x62]; [x63; x64]; [x65]], mk None (Some []) 5 false)
  /\ exists pieces self',
       read_until_empty 6 2
         (__init__ (map Yield [[x61]; []; [x62; x63; x64]; [x65]])) []
       = Some (Ok pieces, self')
       /\ concat pieces = concat [[x61]; []; [x62; x63; x64]; [x65]]
       /\ undelivered self' = []
       /\ (forall front final, pieces = front ++ [final] ->
             Forall (fun piece => length piece = 2) front
             /\ 0 < length final <= 2)
       /\ length pieces
          = (length (concat [[x61]; []; [x62; x63; x64]; [x65]]) + 2 - 1) / 2.
Proof.
  split; [reflexivity|].
  apply (read_in_blocks [[x61]; []; [x62; x63; x64]; [x65]] 2 6); simpl; lia.
Defined.


(** * Further properties of open_iterable *)

(** ** The mode string, as a list of characters *)

Lemma length_list_ascii_of_string s :
  String.length s = length (list_ascii_of_string s).
Proof. induction s as [|c s IH]; simpl; [|rewrite IH]; reflexivity. Qed.

Lemma elem_of_set_of_str c s :
  c ∈ set_of_str s <-> In c (list_ascii_of_string s).
Proof. unfold set_of_str. now rewrite elem_of_list_to_set, list_elem_of_In. Qed.

Lemma size_set_le (l : list ascii) :
  size (list_to_set l : gset ascii) <= length l.
Proof.
  induction l as [|c l IH].
  - apply Nat.eq_le_incl, size_empty.
  - rewrite list_to_set_cons, size_union_alt, size_singleton. simpl length.
    pose proof (subseteq_size (list_to_set l ∖ {[c]}) (list_to_set l : gset ascii)) as Hs.
    assert (Hd : size (list_to_set l ∖ {[c]} : gset ascii)
                 <= size (list_to_set l : gset ascii))
      by (apply Hs; apply subseteq_difference_l; reflexivity).
    lia.
Qed.

(** [len(mode) > len(set(mode))] says that a character is repeated. *)
Lemma size_set_NoDup (l : list ascii) :
  size (list_to_set l : gset ascii) = length l <-> NoDup l.
Proof.
  split; [|apply size_list_to_set].
  induction l as [|c l IH]; [constructor|].
  rewrite list_to_set_cons. simpl length. intros Hsize.
  pose proof (size_set_le l) as Hle.
  destruct (decide (c ∈ l)) as [Hin|Hnin].
  - replace ({[c]} ∪ list_to_set l : gset ascii) with (list_to_set l : gset ascii)
      in Hsize by (apply set_eq; intros x; rewrite elem_of_union, elem_of_singleton,
                   !elem_of_list_to_set; split; [auto | intros [->|]; auto]).
    lia.
  - rewrite size_union, size_singleton in Hsize
      by (apply disjoint_singleton_l; now rewrite elem_of_list_to_set).
    constructor; [exact Hnin | apply IH; lia].
Qed.

(** The test of line 132, on the characters of the mode. *)
Lemma mode_characters_checked mode :
  bool_decide (set_of_str mode ∖ set_of_str "rtb" ≠ ∅)
  || (size (set_of_str mode) <? String.length mode) = false
  <-> Forall (fun c => c = "r"%char \/ c = "t"%char \/ c = "b"%char)
        (list_ascii_of_string mode)
      /\ NoDup (list_ascii_of_string mode).
Proof.
  rewrite orb_false_iff, bool_decide_eq_false, Nat.ltb_ge.
  rewrite length_list_ascii_of_string.
  assert (Hrtb : forall c, c ∈ set_of_str "rtb"
                   <-> c = "r"%char \/ c = "t"%char \/ c = "b"%char).
  { intros c. rewrite elem_of_set_of_str. simpl. intuition congruence. }
  split.
  - intros [Hsub Hsize]. split.
    + apply Forall_forall. intros c Hin. apply Hrtb.
      destruct (decide (c ∈ set_of_str "rtb")) as [|Hout]; [assumption|].
      exfalso. apply Hsub. intros Hempty.
      apply (not_elem_of_empty (C := gset ascii) c). rewrite <- Hempty.
      apply elem_of_difference. split; [|exact Hout].
      now apply elem_of_set_of_str, list_elem_of_In.
    + apply size_set_NoDup. pose proof (size_set_le (list_ascii_of_string mode)).
      unfold set_of_str in Hsize. lia.
  - intros [Hall Hnd]. split.
    + intros Hne. apply Hne. apply set_eq. intros c.
      rewrite elem_of_difference, Hrtb, elem_of_set_of_str.
      split; [|intros Hc; now apply not_elem_of_empty in Hc].
      intros [Hin Hout]. rewrite Forall_forall in Hall.
      destruct Hout. now apply Hall, list_elem_of_In.
    + apply size_set_NoDup in Hnd. unfold set_of_str. lia.
Qed.

(** [open_iterable] raises its "invalid mode" error exactly for the mode
    strings that have a character other than [r], [t], [b] or that repeat
    a character; the other arguments play no part in it. *)
Theorem invalid_mode_iff mode buffering encoding errors newline :
  check_arguments mode buffering encoding errors newline
  = Raise (ValueError ("invalid mode: '" ++ mode ++ "'"))
  <-> ~ (Forall (fun c => c = "r"%char \/ c = "t"%char \/ c = "b"%char)
           (list_ascii_of_string mode)
         /\ NoDup (list_ascii_of_string mode)).
Proof.
  rewrite <- mode_characters_checked. unfold check_arguments.
  destruct (_ || _).
  - split; [intros _ [=] | reflexivity].
  - split; [|intros H; now destruct H].
    intros H. exfalso. revert H.
    repeat match goal with
           | |- context [if ?c then _ else _] => destruct c
           end; simpl; discriminate.
Qed.

Lemma invalid_mode_iff_witness :
  check_arguments "rr" 0 None None None
  = Raise (ValueError ("invalid mode: '" ++ "rr" ++ "'")).
Proof.
  apply (invalid_mode_iff "rr" 0 None None None).
  intros [_ Hnd]. simpl in Hnd. inversion Hnd as [|? ? Hin _]; subst.
  apply Hin. constructor.
Defined.

(** ** The configurations that pass *)

(** A duplicate-free string over [r], [t], [b] has at most three
    characters. *)
Lemma mode_at_most_three (l : list ascii) :
  Forall (fun c => c = "r"%char \/ c = "t"%char \/ c = "b"%char) l ->
  NoDup l -> length l <= 3.
Proof.
  intros Hall Hnd. rewrite <- (size_list_to_set (C := gset ascii) l Hnd).
  change 3 with (length ["r"%char; "t"%char; "b"%char]).
  rewrite <- (size_list_to_set (C := gset ascii) ["r"%char; "t"%char; "b"%char]).
  - apply subseteq_size. intros c. rewrite !elem_of_list_to_set, !list_elem_of_In.
    intros Hin. rewrite Forall_forall in Hall.
    apply list_elem_of_In, Hall in Hin. simpl. intuition congruence.
  - repeat constructor; rewrite list_elem_of_In; simpl; intuition discriminate.
Qed.

(** The arguments [open_iterable] accepts: a text mode, [r], [rt] or
    [tr], with [buffering] other than 0; or a binary mode, [rb] or [br],
    with no [encoding], no [errors] and no [newline]. Every other
    combination raises. *)
Theorem accepted_configurations mode buffering encoding errors newline :
  check_arguments mode buffering encoding errors newline = Ok tt
  <-> ((mode = "r" \/ mode = "rt" \/ mode = "tr") /\ buffering <> 0%Z)
      \/ ((mode = "rb" \/ mode = "br")
          /\ encoding = None /\ errors = None /\ newline = None).
Proof.
  split.
  - intros Hok.
    assert (Hchars : Forall (fun c => c = "r"%char \/ c = "t"%char \/ c = "b"%char)
                       (list_ascii_of_string mode)
                     /\ NoDup (list_ascii_of_string mode)).
    { apply mode_characters_checked. revert Hok. unfold check_arguments.
      destruct (_ || _); [discriminate | reflexivity]. }
    destruct Hchars as [Hall Hnd].
    pose proof (mode_at_most_three _ Hall Hnd) as Hlen.
    clear Hnd.
    destruct mode as [|c1 [|c2 [|c3 [|c4 rest]]]]; simpl in Hall, Hlen; [| | | |lia];
      repeat match goal with
             | H : Forall _ (_ :: _) |- _ => apply Forall_cons in H; destruct H as [? H]
             | H : _ \/ _ |- _ => destruct H
             end; subst; clear Hall Hlen;
      vm_compute in Hok; try discriminate Hok;
      destruct encoding, errors, newline, buffering; try discriminate Hok;
      first [ left; split; [tauto | discriminate]
            | right; split; [tauto | auto] ].
  - intros [[Hm Hb]|[Hm [He1 [He2 He3]]]]; [|subst encoding errors newline].
    + destruct buffering; [contradiction| |];
        destruct Hm as [-> | [-> | ->]]; reflexivity.
    + destruct Hm as [->| ->]; reflexivity.
Qed.

Lemma accepted_configurations_witness :
  check_arguments "br" 0 None None None = Ok tt
  /\ (("tr"%string = "r"%string \/ "tr"%string = "rt"%string \/ "tr"%string = "tr"%string)
      /\ 4096%Z <> 0%Z
      \/ ("tr"%string = "rb"%string \/ "tr"%string = "br"%string)
         /\ Some "utf-8"%string = None /\ @None string = None /\ @None string = None).
Proof.
  split.
  - apply (accepted_configurations "br" 0 None None None).
    right. repeat split. now right.
  - apply (accepted_configurations "tr" 4096 (Some "utf-8"%string) None None).
    reflexivity.
Defined.

(** ** Every outcome of open_iterable *)

Section open_iterable_outcomes.

Variable DEFAULT_BUFFER_SIZE : Z.
Variable BufferedReader_init : Z -> option exn.
Variable TextIOWrapper_init :
  option string -> option string -> option string -> option exn.

(** What [open_iterable] returns tells how it was called, and what it
    raises tells where it failed. A returned [RawIterableReader] means
    [buffering=0] in a binary mode; a returned [io.BufferedReader] means
    another [buffering] in a binary mode; a returned [io.TextIOWrapper]
    means a text mode, and it wraps an [io.BufferedReader], carries the
    decoding arguments and the mode string as given. The reader
    underneath is a fresh one over the iterable: nothing was pulled. An
    exception is the [ValueError] of a failed check, or what a
    constructor of the [io] layers raised, unchanged, the text layer
    being built only once the buffered one is. *)
Theorem open_iterable_outcome iterable mode buffering encoding errors newline :
  let size := block_size DEFAULT_BUFFER_SIZE buffering in
  match open_iterable DEFAULT_BUFFER_SIZE BufferedReader_init TextIOWrapper_init
          iterable mode buffering encoding errors newline with
  | Ok (RawFile raw) =>
      raw = __init__ iterable /\ buffering = 0%Z /\ binary mode = true
  | Ok (BufferedReader raw buffer_size) =>
      raw = __init__ iterable /\ buffer_size = size
      /\ buffering <> 0%Z /\ binary mode = true
      /\ BufferedReader_init size = None
  | Ok (TextIOWrapper buffer encoding' errors' newline' mode') =>
      buffer = BufferedReader (__init__ iterable) size
      /\ (encoding', errors', newline', mode') = (encoding, errors, newline, mode)
      /\ buffering <> 0%Z /\ text mode = true /\ binary mode = false
      /\ BufferedReader_init size = None
      /\ TextIOWrapper_init encoding errors newline = None
  | Raise e =>
      check_arguments mode buffering encoding errors newline = Raise e
      \/ (check_arguments mode buffering encoding errors newline = Ok tt
          /\ buffering <> 0%Z
          /\ (BufferedReader_init size = Some e
              \/ (BufferedReader_init size = None /\ binary mode = false
                  /\ TextIOWrapper_init encoding errors newline = Some e)))
  end.
Proof.
  cbn zeta. unfold open_iterable.
  destruct (check_arguments mode buffering encoding errors newline) as [[]|e] eqn:Hok;
    [|now left].
  destruct (check_arguments_passed _ _ _ _ _ Hok) as (_ & Htb & Hnz).
  unfold compose. destruct (Z.eqb_spec buffering 0) as [Hz|Hz].
  - split; [reflexivity|]. split; [exact Hz|].
    destruct (binary mode); [reflexivity|]. now destruct Hnz.
  - destruct (BufferedReader_init _) as [e|] eqn:HB; [right; auto|].
    destruct (binary mode) eqn:Hb; [repeat split; auto|].
    destruct (TextIOWrapper_init _ _ _) as [e|] eqn:HT.
    + right. repeat split; auto.
    + repeat split; auto.
Qed.

End open_iterable_outcomes.


(** * The pending buffer stays small *)

(** One call, chunks of at most [M] bytes ahead: fewer than [M] bytes
    are left pending. *)
Lemma readinto_pending_bound M self b buffer :
  closed self = false -> _buffer self = Some buffer ->
  length buffer <= M - 1 ->
  (forall it, _iter self = Some it ->
     chunks_only it /\ forall c, In (Yield c) it -> length c <= M) ->
  exists n b' self' buffer',
    readinto self b = (Ok n, b', self')
    /\ closed self' = false /\ _buffer self' = Some buffer'
    /\ length buffer' <= M - 1
    /\ (forall it', _iter self' = Some it' ->
          chunks_only it' /\ forall c, In (Yield c) it' -> length c <= M).
Proof.
  intros Hc Hb Hlen Hit.
  assert (Hq : quiet (_iter self)).
  { destruct (_iter self) as [it|] eqn:Hi; simpl; [|trivial]. now apply Hit. }
  destruct (pull_quiet (length b) (_iter self) buffer (_total self) Hq) as [Hr Hq'].
  pose proof (readinto_open self b buffer Hc Hb Hr) as Hcall.
  assert (Hx : length (skipn (length b)
                 (exit_buffer (pull (length b) (_iter self) buffer (_total self))))
               <= M - 1
               /\ forall it', exit_iter (pull (length b) (_iter self) buffer (_total self))
                              = Some it' ->
                    forall c, In (Yield c) it' -> length c <= M).
  { destruct (_iter self) as [it|] eqn:Hi; simpl.
    - destruct (Hit it eq_refl) as [_ Hbound].
      pose proof (readinto_loop_trace (length b) it buffer (_total self)) as Htr.
      cbn zeta in Htr. destruct Htr as (chunks & Hbuf & _ & Hmin & Hend).
      simpl in Hr. rewrite Hr in Hend. rewrite Hbuf. split.
      + rewrite length_skipn.
        destruct chunks as [|final front _] using rev_ind.
        * simpl. rewrite app_nil_r. lia.
        * specialize (Hmin front final eq_refl).
          assert (Hfinal : length final <= M).
          { apply Hbound.
            destruct (exit_iter _) as [it'|];
              [destruct Hend as [-> _] | destruct Hend as (_ & tail & -> & _)];
              apply in_or_app; left; rewrite map_app; apply in_or_app; right;
              now left. }
          rewrite concat_app in *. simpl. rewrite app_nil_r.
          rewrite !length_app in *. lia.
      + intros it' Hi'. rewrite Hi' in Hend. destruct Hend as [-> _].
        intros c Hin. apply Hbound, in_or_app. now right.
    - split; [rewrite length_skipn; lia | discriminate]. }
  destruct Hx as [Hpend Hrest].
  do 4 eexists. split; [exact Hcall|]. simpl.
  split; [reflexivity|]. split; [reflexivity|]. split; [exact Hpend|].
  intros it' Hi'. split; [|now apply Hrest].
  rewrite Hi' in Hq'. exact Hq'.
Qed.

(** Over a producer that yields chunks of at most [M] bytes and then
    stops, after any run of [readinto] calls the reader holds fewer than
    [M] pending bytes (none when [M] is 0): it buffers the remainder of
    one chunk at most, however much was asked for. *)
Theorem pending_stays_small (chunks : list bytes) (bs : list bytes) (M : nat) :
  Forall (fun chunk => length chunk <= M) chunks ->
  exists buffer,
    _buffer (reader_after (__init__ (map Yield chunks))
               (readinto_each (__init__ (map Yield chunks)) bs))
    = Some buffer
    /\ length buffer <= M - 1.
Proof.
  intros Hall.
  assert (Hgen : forall self buffer,
            closed self = false -> _buffer self = Some buffer ->
            length buffer <= M - 1 ->
            (forall it, _iter self = Some it ->
               chunks_only it /\ forall c, In (Yield c) it -> length c <= M) ->
            exists buffer',
              _buffer (reader_after self (readinto_each self bs)) = Some buffer'
              /\ length buffer' <= M - 1).
  { induction bs as [|b bs IH]; intros self buffer Hc Hb Hlen Hit; simpl.
    - exists buffer. auto.
    - destruct (readinto_pending_bound M self b buffer Hc Hb Hlen Hit)
        as (n & b' & self' & buffer' & Hr & Hc' & Hb' & Hlen' & Hit').
      rewrite Hr, reader_after_cons. simpl self_after.
      now apply (IH self' buffer'). }
  apply (Hgen (__init__ (map Yield chunks)) []); simpl; auto; [lia|].
  intros it [= <-]. split; [apply chunks_only_map|].
  intros c Hin. apply in_map_iff in Hin. destruct Hin as (c' & [= ->] & Hin).
  rewrite Forall_forall in Hall. now apply Hall, list_elem_of_In.
Qed.

Lemma pending_stays_small_witness :
  exists buffer,
    _buffer (reader_after (__init__ (map Yield [[x61; x62; x63]; [x64; x65]]))
               (readinto_each (__init__ (map Yield [[x61; x62; x63]; [x64; x65]]))
                  [[x00]; [x00; x00; x00]]))
    = Some buffer
    /\ length buffer <= 3 - 1.
Proof.
  apply (pending_stays_small [[x61; x62; x63]; [x64; x65]]
           [[x00]; [x00; x00; x00]] 3).
  repeat constructor.
Defined.
